(** * SSDi-Calculator: the statistical engine, embedded and verified

    A shallow embedding of [SSDi-Calculator.py]: record aggregation
    ([input_to_dict]), the dimorphism index ([ssdi_single]), the pairwise
    estimator ([ssdi_pairwise]), the permutation test ([run_permutations])
    and the per-species driver ([run_ssdi_calculations]).

    Numbers.  The program computes in binary64.  Two embeddings of its
    numeric functions are given.  In the first a finite float is the
    rational it denotes (type [Q]) and arithmetic is exact: binary rounding
    error, the signed zero, overflow to [inf] and the tokens [inf]/[nan]
    accepted by [float()] are outside it, and the one [nan] the program can
    produce without them, the mean of an empty list, is kept ([npfloat]).
    It carries the properties of order, sign, counting and control flow.
    In the second ([Generic]) the float type and its operations are
    parameters, so that a statement about the value of an expression is a
    statement about the value the interpreter computes.  Exceptions are
    values of the error monad [res]. *)

From Stdlib Require Import QArith Qround Qabs Qreduction ZArith Lia Lqa.
From Stdlib Require Import String Ascii.
From stdpp Require Import gmap strings list sorting.

Local Open Scope Q_scope.

(** ** Exceptions and the error monad *)

Inductive exn : Set :=
| ValueError
| ZeroDivisionError
| UnboundLocalError
| IndexError
| NumpyDivideByZero
| StopIteration.

Inductive res (A : Type) : Type :=
| Ok (a : A)
| Raise (e : exn).
Arguments Ok {A} a.
Arguments Raise {A} e.

#[global] Instance res_ret : MRet res := fun A a => Ok a.
#[global] Instance res_bind : MBind res := fun A B k c =>
  match c with
  | Ok a => k a
  | Raise e => Raise e
  end.

(** [for x in xs: body], threading the loop-carried state and stopping at
    the first exception. *)
Fixpoint for_each {A S} (xs : list A) (body : A -> S -> res S) (s : S) : res S :=
  match xs with
  | [] => Ok s
  | x :: xs' => s' ← body x s; for_each xs' body s'
  end.

(** ** Numbers *)

Definition Qlt_bool (x y : Q) : bool := negb (Qle_bool y x).

(** [10 ** nd]. *)
Fixpoint pow10 (nd : nat) : positive :=
  match nd with
  | O => 1%positive
  | S k => (10 * pow10 k)%positive
  end.

(** Round to the nearest integer, ties to the even one. *)
Definition rint (x : Q) : Z :=
  let z := Qfloor x in
  match Qcompare (x - inject_Z z) (1 # 2) with
  | Lt => z
  | Gt => (z + 1)%Z
  | Eq => if Z.even z then z else (z + 1)%Z
  end.

(** Python 3 [round(x, nd)] on the exact value: the nearest multiple of
    [10 ** -nd], ties to even, in lowest terms. *)
Definition py_round (x : Q) (nd : nat) : Q :=
  Qred (rint (x * inject_Z (Zpos (pow10 nd))) # pow10 nd).

(** [x / y] on Python floats. *)
Definition truediv (x y : Q) : res Q :=
  if Qeq_bool y 0 then Raise ZeroDivisionError else Ok (x / y).

(** A numpy float: [nan] or a finite value. *)
Inductive npfloat : Type :=
| nan
| fin (q : Q).

Definition np_round (x : npfloat) (nd : nat) : npfloat :=
  match x with
  | nan => nan
  | fin q => fin (py_round q nd)
  end.

Definition np_abs (x : npfloat) : npfloat :=
  match x with
  | nan => nan
  | fin q => fin (Qabs q)
  end.

Definition np_sub (x y : npfloat) : npfloat :=
  match x, y with
  | fin a, fin b => fin (a - b)
  | _, _ => nan
  end.

(** Comparisons with [nan] are false. *)
Definition np_leb (x y : npfloat) : bool :=
  match x, y with
  | fin a, fin b => Qle_bool a b
  | _, _ => false
  end.

Definition np_ltb (x y : npfloat) : bool :=
  match x, y with
  | fin a, fin b => Qlt_bool a b
  | _, _ => false
  end.

Definition Qsum (l : list Q) : Q := fold_left Qplus l 0.

(** [np.mean]: [nan] on the empty list. *)
Definition np_mean (l : list Q) : npfloat :=
  match l with
  | [] => nan
  | _ => fin (Qsum l / inject_Z (Z.of_nat (length l)))
  end.

(** ** The dimorphism index *)

(** [ssdi_single(f, m)], lines 252-270.  The three tests are an
    [if]/[elif]/[elif] chain without [else]: were none to hold, [ssdi]
    would be unbound at the [return]. *)
Definition ssdi_single (f m : Q) : res Q :=
  if Qlt_bool f m then
    r ← truediv m f;
    Ok (py_round (-1 * (r - 1)) 3)
  else if Qlt_bool m f then
    r ← truediv f m;
    Ok (py_round (r - 1) 3)
  else if Qeq_bool f m then
    Ok 0
  else Raise UnboundLocalError.

(** ** Strings *)

(** ASCII whitespace, as removed by [str.strip()]. *)
Definition is_space (c : ascii) : bool :=
  let n := nat_of_ascii c in
  (Nat.leb 9 n && Nat.leb n 13) || (Nat.leb 28 n && Nat.leb n 32).

Fixpoint lstrip (s : string) : string :=
  match s with
  | EmptyString => EmptyString
  | String c s' => if is_space c then lstrip s' else s
  end.

Fixpoint rstrip (s : string) : string :=
  match s with
  | EmptyString => EmptyString
  | String c s' =>
      match rstrip s' with
      | EmptyString => if is_space c then EmptyString else String c EmptyString
      | r => String c r
      end
  end.

Definition strip (s : string) : string := rstrip (lstrip s).

(** [s.split(sep)] for a one-character separator: empty fields are kept. *)
Fixpoint split (sep : ascii) (s : string) : list string :=
  match s with
  | EmptyString => [EmptyString]
  | String c s' =>
      if Ascii.eqb c sep then EmptyString :: split sep s'
      else match split sep s' with
           | [] => [String c EmptyString]
           | w :: ws => String c w :: ws
           end
  end.

Definition upper_ascii (c : ascii) : ascii :=
  let n := nat_of_ascii c in
  if Nat.leb 97 n && Nat.leb n 122 then ascii_of_nat (n - 32) else c.

(** [s.upper()] on ASCII letters. *)
Fixpoint upper (s : string) : string :=
  match s with
  | EmptyString => EmptyString
  | String c s' => String (upper_ascii c) (upper s')
  end.

(** Truth value of a string: non-empty. *)
Definition nonempty (s : string) : bool :=
  match s with
  | EmptyString => false
  | String _ _ => true
  end.

(** [l[i]]. *)
Definition getitem {A} (l : list A) (i : nat) : res A :=
  match l !! i with
  | Some x => Ok x
  | None => Raise IndexError
  end.

(** ** Record aggregation *)

(** The value stored per species: [{"M": [...], "F": [...]}]. *)
Record cohort : Type := { M : list Q; F : list Q }.

Definition append_M (size : Q) (v : cohort) : cohort :=
  {| M := M v ++ [size]; F := F v |}.
Definition append_F (size : Q) (v : cohort) : cohort :=
  {| M := M v; F := F v ++ [size] |}.

Inductive fileformat : Set := tab | csv.

Definition separator (fmt : fileformat) : ascii :=
  match fmt with
  | tab => ascii_of_nat 9
  | csv => ","%char
  end.

(** The log records written by [input_to_dict] while it reads records. *)
Inductive event : Type :=
| debug_bad_line (line : string)
| debug_skipping_entry (species sex : string) (size : Q)
| info_found_data (n : nat).

Section Ingestion.

(** [float(s)]: [None] when Python raises [ValueError]. *)
Variable float_of_string : string -> option Q.

Definition float (s : string) : res Q :=
  match float_of_string s with
  | Some q => Ok q
  | None => Raise ValueError
  end.

(** Body of the loop over the lines of the file, lines 99-135. *)
Definition process_line (fmt : fileformat) (line : string)
    (st : gmap string cohort * list event)
  : res (gmap string cohort * list event) :=
  let '(species_dict, log) := st in
  if nonempty (strip line) then
    let cols := split (separator fmt) (strip line) in
    if Nat.ltb (length cols) 3 then
      Ok (species_dict, log ++ [debug_bad_line line])
    else
      species ← getitem cols 0;
      col1 ← getitem cols 1;
      let sex := upper col1 in
      col2 ← getitem cols 2;
      size ← float col2;
      match species_dict !! species with
      | None =>
          let species_dict := <[species := {| M := []; F := [] |}]> species_dict in
          if String.eqb sex "M" then
            Ok (alter (append_M size) species species_dict, log)
          else if String.eqb sex "F" then
            Ok (alter (append_F size) species species_dict, log)
          else
            Ok (species_dict, log ++ [debug_skipping_entry species sex size])
      | Some _ =>
          if String.eqb sex "M" then
            Ok (alter (append_M size) species species_dict, log)
          else if String.eqb sex "F" then
            Ok (alter (append_F size) species species_dict, log)
          else
            Ok (species_dict, log ++ [debug_skipping_entry species sex size])
      end
  else Ok st.

(** [input_to_dict], lines 76-140, on the lines of the opened file: the
    header is skipped, every other line goes through [process_line], and
    the number of species found is logged. *)
Definition input_to_dict (fh : list string) (fmt : fileformat)
  : res (gmap string cohort * list event) :=
  match fh with
  | [] => Raise StopIteration
  | _ :: lines =>
      '(species_dict, log) ← for_each lines (process_line fmt) (∅, []);
      Ok (species_dict, log ++ [info_found_data (size species_dict)])
  end.

End Ingestion.

(** [float()] on plain decimal literals [[+-]digits[.digits]], used to run
    the aggregation on concrete files. *)
Definition digit_of (c : ascii) : option Z :=
  let n := nat_of_ascii c in
  if Nat.leb 48 n && Nat.leb n 57 then Some (Z.of_nat (n - 48)) else None.

Fixpoint decimal_digits (s : string) (num : Z) (den : positive)
    (seen_point seen_digit : bool) : option Q :=
  match s with
  | EmptyString => if seen_digit then Some (Qred (num # den)) else None
  | String c s' =>
      if Ascii.eqb c "."%char then
        if seen_point then None else decimal_digits s' num den true seen_digit
      else
        match digit_of c with
        | None => None
        | Some d =>
            decimal_digits s' (10 * num + d)
              (if seen_point then 10 * den else den)%positive seen_point true
        end
  end.

Definition decimal_float (s : string) : option Q :=
  match strip s with
  | String "-" s' => Qopp <$> decimal_digits s' 0 1 false false
  | String "+" s' => decimal_digits s' 0 1 false false
  | s' => decimal_digits s' 0 1 false false
  end.

(** ** Values of the result table *)

(** A field is a string (["NA"], ["<0.001"]) or a number. *)
Inductive pyval : Type :=
| Str (s : string)
| Flt (x : npfloat).

(** ** The random source *)

(** The generator is an endless sequence of raw draws and a cursor into
    it; [randbelow n] reduces the next raw draw below [n]. *)
Record random_state : Type := { draws : nat -> nat; cursor : nat }.

Definition randbelow (n : nat) (g : random_state) : nat * random_state :=
  (draws g (cursor g) `mod` n, {| draws := draws g; cursor := S (cursor g) |}).

(** The selection loop of [random.sample]: at step [i] an index [j] below
    [n - i] is drawn, [pool[j]] becomes [result[i]], and the last live
    element of the pool moves to slot [j]. *)
Fixpoint sample_loop {A} (steps i n : nat) (pool result : list A)
    (g : random_state) : res (list A * random_state) :=
  match steps with
  | O => Ok (result, g)
  | S steps' =>
      let '(j, g') := randbelow (n - i) g in
      x ← getitem pool j;
      y ← getitem pool (n - i - 1);
      sample_loop steps' (S i) n (<[j := y]> pool) (result ++ [x]) g'
  end.

(** [random.sample(population, k)]. *)
Definition random_sample {A} (population : list A) (k : nat)
    (g : random_state) : res (list A * random_state) :=
  let n := length population in
  if Nat.ltb n k then Raise ValueError
  else sample_loop k 0 n population [] g.

(** ** Sorting and percentiles *)

Definition Qle_rel (x y : Q) : Prop := Is_true (Qle_bool x y).

(** The order under which [list.sort()] arranges the replicate means: the
    numeric order, with [nan] after every number.  Python compares with
    [<] only, and on a list of numbers, or of [nan] alone, every stable
    sort gives the list built here. *)
Definition np_sort_leb (x y : npfloat) : bool :=
  match x, y with
  | fin a, fin b => Qle_bool a b
  | nan, fin _ => false
  | _, nan => true
  end.

Definition np_sort_le (x y : npfloat) : Prop := Is_true (np_sort_leb x y).

Definition list_sort (l : list npfloat) : list npfloat := merge_sort np_sort_le l.

Fixpoint all_fin (l : list npfloat) : option (list Q) :=
  match l with
  | [] => Some []
  | nan :: _ => None
  | fin q :: l' => cons q <$> all_fin l'
  end.

(** Linear interpolation between the two order statistics of the sorted
    sample [s] around the virtual index [(n - 1) * q / 100]. *)
Definition interpolate (s : list Q) (q : Q) : Q :=
  let n := length s in
  let virtual := inject_Z (Z.of_nat (n - 1)) * (q / 100) in
  let lo := Z.to_nat (Qfloor virtual) in
  let hi := Nat.min (lo + 1) (n - 1) in
  let gamma := virtual - inject_Z (Qfloor virtual) in
  nth lo s 0 + gamma * (nth hi s 0 - nth lo s 0).

(** [np.percentile(a, q)]: the data are ordered and interpolated at [q];
    [nan] as soon as the data hold one. *)
Definition np_percentile (a : list npfloat) (q : Q) : npfloat :=
  match all_fin a with
  | None | Some [] => nan
  | Some xs => fin (interpolate (merge_sort Qle_rel xs) q)
  end.

(** ** Pairwise estimator and permutation test *)

(** Number of replicates, [range(0, 10000)]. *)
Definition n_bootstraps : nat := Z.to_nat 10000.

Section Analysis.

(** [stats.ttest_1samp(vals, popmean)[1]]: the two-sided p-value of the
    one-sample t-test, [nan] where SciPy yields [nan]. *)
Variable ttest_1samp : list Q -> Q -> npfloat.

(** The nested loops of lines 289-295. *)
Definition pairwise_vals (females males : list Q) : res (list Q) :=
  for_each females (fun f vals =>
    for_each males (fun m vals =>
      v ← ssdi_single f m;
      Ok (vals ++ [v])) vals) [].

(** [ssdi_pairwise(females, males, ttest)], lines 273-314. *)
Definition ssdi_pairwise (females males : list Q) (ttest : bool)
  : res (npfloat * pyval) :=
  vals ← pairwise_vals females males;
  let avg_ssdi := np_round (np_mean vals) 3 in
  let p :=
    if negb ttest then Str "NA"
    else
      let results1 := ttest_1samp vals 0 in
      if np_leb results1 (fin (1 # 1000)) then Str "<0.001"
      else Flt (np_round results1 3) in
  Ok (avg_ssdi, p).

(** One replicate, lines 341-350. *)
Definition bootstrap (females allsizes : list Q) (i : nat)
    (st : list npfloat * random_state) : res (list npfloat * random_state) :=
  let '(permuted_ssdi_vals, g) := st in
  '(randomized, g') ← random_sample allsizes (length allsizes) g;
  let newf := take (length females) randomized in
  let newm := drop (length females) randomized in
  '(perm_avg_ssdi, p) ← ssdi_pairwise newf newm false;
  Ok (permuted_ssdi_vals ++ [perm_avg_ssdi], g').

(** The two-tailed p-value of lines 359-364. *)
Definition ptwotail (permuted_ssdi_vals : list npfloat) (emp_ssdi : npfloat) : Q :=
  let extreme :=
    List.filter (fun x => np_ltb (np_abs emp_ssdi) (np_abs x)) permuted_ssdi_vals in
  py_round ((inject_Z (Z.of_nat (length extreme)) + 1)
            / (inject_Z (Z.of_nat (length permuted_ssdi_vals)) + 1)) 5.

Definition format_pvalue (p : Q) : pyval :=
  if Qle_bool p (1 # 1000) then Str "<0.001" else Flt (fin (py_round p 3)).

(** [run_permutations(females, males, emp_ssdi)], lines 316-383. *)
Definition run_permutations (females males : list Q) (emp_ssdi : npfloat)
    (g : random_state) : res (npfloat * npfloat * pyval * random_state) :=
  let allsizes := females ++ males in
  '(permuted_ssdi_vals, g') ←
    for_each (seq 0 n_bootstraps) (bootstrap females allsizes) ([], g);
  let permuted_ssdi_vals := list_sort permuted_ssdi_vals in
  let low := np_round (np_percentile permuted_ssdi_vals (25 # 10)) 3 in
  let high := np_round (np_percentile permuted_ssdi_vals (975 # 10)) 3 in
  let p := format_pvalue (ptwotail permuted_ssdi_vals emp_ssdi) in
  Ok (low, high, p, g').

(** ** Per-species driver *)

(** [ssdi_single] called with a numpy argument (a rounded mean).  With a
    [nan] argument none of its three tests holds.  A zero divisor is
    numpy's divide-by-zero condition there: a warning and an infinite
    quotient, which the rational model does not carry. *)
Definition ssdi_single_np (f m : npfloat) : res Q :=
  match f, m with
  | fin f, fin m =>
      match ssdi_single f m with
      | Raise ZeroDivisionError => Raise NumpyDivideByZero
      | r => r
      end
  | _, _ => Raise UnboundLocalError
  end.

(** The locals set next to [ssdi] in each branch of lines 190-234
    (the keys of the stored record). *)
Record tests : Type := {
  avg_ssdi : pyval; p_pair : pyval; low : pyval; high : pyval;
  p_perm : pyval; diff : pyval; avgf : pyval; avgm : pyval }.

(** A row of [calc_dict], lines 245-248. *)
Record result : Type := {
  males : nat; females : nat; ssdi : Q; fields : tests }.

(** The pairwise analyses repeated in the three branches with more than
    one individual of a sex (lines 201-207, 214-220, 227-233). *)
Definition pairwise_tests (v : cohort) (ssdi : Q) (avgf avgm : pyval)
    (g : random_state) : res (tests * random_state) :=
  '(avg_ssdi, p_pair) ← ssdi_pairwise (F v) (M v) true;
  '(low, high, p_perm, g') ← run_permutations (F v) (M v) avg_ssdi g;
  let diff := np_abs (np_sub (fin ssdi) avg_ssdi) in
  Ok ({| avg_ssdi := Flt avg_ssdi; p_pair := p_pair; low := Flt low;
         high := Flt high; p_perm := p_perm; diff := Flt diff;
         avgf := avgf; avgm := avgm |}, g').

(** The branch on the two sample sizes, lines 190-240: the index and the
    other locals, or [None] where the source sets [ssdi = None]. *)
Definition species_tests (v : cohort) (g : random_state)
  : res (option (Q * tests) * random_state) :=
  let nF := length (F v) in
  let nM := length (M v) in
  if Nat.eqb nF 1 && Nat.eqb nM 1 then
    f0 ← getitem (F v) 0;
    m0 ← getitem (M v) 0;
    ssdi ← ssdi_single f0 m0;
    Ok (Some (ssdi, {| avg_ssdi := Str "NA"; p_pair := Str "NA";
                       low := Str "NA"; high := Str "NA"; p_perm := Str "NA";
                       diff := Str "NA"; avgf := Str "NA"; avgm := Str "NA" |}), g)
  else if Nat.ltb 1 nF && Nat.eqb nM 1 then
    m0 ← getitem (M v) 0;
    ssdi ← ssdi_single_np (np_round (np_mean (F v)) 1) (fin m0);
    '(t, g') ← pairwise_tests v ssdi (Flt (np_round (np_mean (F v)) 1)) (Str "NA") g;
    Ok (Some (ssdi, t), g')
  else if Nat.eqb nF 1 && Nat.ltb 1 nM then
    f0 ← getitem (F v) 0;
    ssdi ← ssdi_single_np (fin f0) (np_round (np_mean (M v)) 1);
    '(t, g') ← pairwise_tests v ssdi (Str "NA") (Flt (np_round (np_mean (M v)) 1)) g;
    Ok (Some (ssdi, t), g')
  else if Nat.ltb 1 nF && Nat.ltb 1 nM then
    ssdi ← ssdi_single_np (np_round (np_mean (F v)) 1) (np_round (np_mean (M v)) 1);
    '(t, g') ← pairwise_tests v ssdi (Flt (np_round (np_mean (F v)) 1))
                 (Flt (np_round (np_mean (M v)) 1)) g;
    Ok (Some (ssdi, t), g')
  else Ok (None, g).

(** Truth value of [ssdi] in [if ssdi:], line 243: [None] and [0.0] are
    false. *)
Definition truthy (ssdi : option (Q * tests)) : bool :=
  match ssdi with
  | None => false
  | Some (x, _) => negb (Qeq_bool x 0)
  end.

(** Body of the loop over the species, lines 183-248. *)
Definition species_step (kv : string * cohort)
    (st : gmap string result * random_state)
  : res (gmap string result * random_state) :=
  let '(k, v) := kv in
  let '(calc_dict, g) := st in
  '(r, g') ← species_tests v g;
  match r with
  | Some (x, t) =>
      if truthy r then
        Ok (<[k := {| males := length (M v); females := length (F v);
                      ssdi := x; fields := t |}]> calc_dict, g')
      else Ok (calc_dict, g')
  | None => Ok (calc_dict, g')
  end.

(** [sorted(species_dict.items())]: the keys are distinct, so the pairs
    are ordered by species name. *)
Definition key_le (x y : string * cohort) : Prop :=
  Is_true (String.leb x.1 y.1).

Definition sorted_items (species_dict : gmap string cohort)
  : list (string * cohort) :=
  merge_sort key_le (map_to_list species_dict).

(** [run_ssdi_calculations(species_dict)], lines 170-249. *)
Definition run_ssdi_calculations (species_dict : gmap string cohort)
    (g : random_state) : res (gmap string result * random_state) :=
  for_each (sorted_items species_dict) species_step (∅, g).

End Analysis.

(** ** Reference definitions, following the specification *)

(** Section 4.2, precondition: sizes are strictly positive. *)
Definition positive_sizes (l : list Q) : Prop := Forall (fun x => 0 < x) l.

(** Section 4.2: [ssdi(female_size, male_size)]. *)
Definition DimorphismIndex (female_size male_size : Q) : Q :=
  if Qlt_bool female_size male_size then
    py_round (- (male_size / female_size - 1)) 3
  else if Qlt_bool male_size female_size then
    py_round (female_size / male_size - 1) 3
  else 0.

(** Section 4.3: the index of every (female, male) pair. *)
Definition cross_product (females males : list Q) : list Q :=
  flat_map (fun f => map (fun m => DimorphismIndex f m) males) females.

(** Sections 4.3 and 4.4: a p-value as it is reported. *)
Definition formatted_pvalue (p : npfloat) : pyval :=
  if np_leb p (fin (1 # 1000)) then Str "<0.001" else Flt (np_round p 3).

(** Section 4.3: the mean of the pairwise indices, rounded to 3 decimals. *)
Definition average_pairwise (females males : list Q) : npfloat :=
  np_round (np_mean (cross_product females males)) 3.

(** Section 4.4: [x] is replicate number [i] of the permutation test begun
    in generator state [g]: the pooled sizes are rearranged by the draws
    that follow those of the earlier replicates, the first [|females|] of
    them are relabelled female and the rest male, and [x] is the average
    pairwise index of that split. *)
Definition replicate (females males : list Q) (g : random_state) (i : nat)
    (x : npfloat) : Prop :=
  let allsizes := females ++ males in
  exists randomized g',
    random_sample allsizes (length allsizes)
      {| draws := draws g; cursor := cursor g + i * length allsizes |}
      = Ok (randomized, g') /\
    randomized ≡ₚ allsizes /\
    length (take (length females) randomized) = length females /\
    length (drop (length females) randomized) = length males /\
    x = average_pairwise (take (length females) randomized)
                         (drop (length females) randomized).

(** Section 4.4: the two-tailed empirical p-value of [emp] in the null
    distribution [null] of 10,000 replicates. *)
Definition two_tailed_pvalue (null : list npfloat) (emp : npfloat) : Q :=
  let exceeding := List.filter (fun x => np_ltb (np_abs emp) (np_abs x)) null in
  py_round ((inject_Z (Z.of_nat (length exceeding)) + 1) / 10001) 5.

(** Section 4.5: the size of one sex handed to the index: the mean rounded
    to 1 decimal when the sex has more than one entry, the raw value of
    its single entry otherwise. *)
Definition index_input (sizes : list Q) : npfloat :=
  if Nat.ltb 1 (length sizes) then np_round (np_mean sizes) 1
  else match sizes with
       | x :: _ => fin x
       | [] => nan
       end.

(** Section 4.1: the fields of a line, and what makes a line a record of a
    given species, with or without a recognised sex token. *)
Definition columns (fmt : fileformat) (line : string) : list string :=
  split (separator fmt) (strip line).

Definition record_of (fmt : fileformat) (species line : string) : Prop :=
  nonempty (strip line) = true /\
  (3 <= length (columns fmt line))%nat /\
  columns fmt line !! 0%nat = Some species.

Definition unrecognized_sex (fmt : fileformat) (line : string) : Prop :=
  forall col1, columns fmt line !! 1%nat = Some col1 ->
    upper col1 <> "M"%string /\ upper col1 <> "F"%string.

Definition unparseable_size (float_of_string : string -> option Q)
    (fmt : fileformat) (line : string) : Prop :=
  nonempty (strip line) = true /\
  exists col2, columns fmt line !! 2%nat = Some col2 /\
               float_of_string col2 = None.

(** The cohort created on first sight of a species. *)
Definition empty_cohort : cohort := {| M := []; F := [] |}.

(** ** Example inputs *)

(** Two records of equal size, one of each sex. *)
Definition equal_sizes_file : list string :=
  ["Species,Sex,Size"; "Fox,M,5.0"; "Fox,F,5.0"]%string.

Definition equal_sizes_dict : gmap string cohort :=
  {[ "Fox"%string := {| M := [5]; F := [5] |} ]}.

(** A species, [Cat], whose records all carry an unrecognised sex token. *)
Definition unknown_sex_dict : gmap string cohort :=
  <[ "Cat"%string := empty_cohort ]>
    {[ "Fox"%string := {| M := [10]; F := [12] |} ]}.

Definition unknown_sex_log : list event :=
  [debug_skipping_entry "Cat" "X" 1; debug_skipping_entry "Cat" "?" 2;
   info_found_data 2].

(** ** Sample-size summary *)

(** Body of the loop of [quick_counts], lines 154-162. *)
Definition quick_counts_step (c : nat * nat * nat) (kv : string * cohort)
  : nat * nat * nat :=
  let '(k, v) := kv in
  let '(onecount, twocount, threecount) := c in
  let onecount :=
    if Nat.ltb 1 (length (M v)) && Nat.ltb 1 (length (F v))
    then S onecount else onecount in
  let twocount :=
    if Nat.ltb 2 (length (M v)) && Nat.ltb 2 (length (F v))
    then S twocount else twocount in
  let threecount :=
    if Nat.ltb 3 (length (M v)) && Nat.ltb 3 (length (F v))
    then S threecount else threecount in
  (onecount, twocount, threecount).

(** [quick_counts(species_dict)], lines 142-167: the three counts it
    writes to the log. *)
Definition quick_counts (species_dict : gmap string cohort) : nat * nat * nat :=
  fold_left quick_counts_step (sorted_items species_dict) (0, 0, 0)%nat.

(** ** Reading of a file, record by record *)

(** The record a line holds: species, upper-cased sex token and size;
    [None] for a blank line, a line of fewer than 3 fields or a size that
    [float()] rejects. *)
Definition parsed_record (float_of_string : string -> option Q)
    (fmt : fileformat) (line : string) : option (string * string * Q) :=
  if nonempty (strip line) then
    match columns fmt line with
    | species :: col1 :: col2 :: _ =>
        match float_of_string col2 with
        | Some size => Some (species, upper col1, size)
        | None => None
        end
    | _ => None
    end
  else None.

(** The sizes of the records of one species and one sex, in file order. *)
Definition sizes_of (float_of_string : string -> option Q) (fmt : fileformat)
    (species sex : string) (lines : list string) : list Q :=
  flat_map (fun line =>
    match parsed_record float_of_string fmt line with
    | Some (sp, sx, size) =>
        if String.eqb sp species && String.eqb sx sex then [size] else []
    | None => []
    end) lines.

(** The diagnostics a line gives rise to. *)
Definition line_events (float_of_string : string -> option Q)
    (fmt : fileformat) (line : string) : list event :=
  if nonempty (strip line) then
    if Nat.ltb (length (columns fmt line)) 3 then [debug_bad_line line]
    else
      match parsed_record float_of_string fmt line with
      | Some (sp, sx, size) =>
          if String.eqb sx "M" || String.eqb sx "F" then []
          else [debug_skipping_entry sp sx size]
      | None => []
      end
  else [].

(** The entry of a species, read as empty when the species is absent. *)
Definition cohort_of (d : gmap string cohort) (species : string) : cohort :=
  default empty_cohort (d !! species).

Definition unknown_sex_file : list string :=
  ["Species,Sex,Size"; "Fox,M,10.0"; "Cat,x,1.0"; "Fox,F,12.0"; "Cat,?,2.0"]%string.

(** All the sizes of a list are equal to [c]. *)
Definition all_equal (c : Q) (l : list Q) : Prop := Forall (fun x => x == c) l.


(** Every split of every arrangement of the pool has all its pairwise
    indices defined. *)
Definition splits_defined (females males : list Q) : Prop :=
  forall randomized f m, randomized ≡ₚ females ++ males ->
    In f (take (length females) randomized) ->
    In m (drop (length females) randomized) ->
    ssdi_single f m = Ok (DimorphismIndex f m).

(** ** Rows of the result mapping *)

(** The locals of the branch with one individual of each sex, line 195. *)
Definition all_NA : tests :=
  {| avg_ssdi := Str "NA"; p_pair := Str "NA"; low := Str "NA";
     high := Str "NA"; p_perm := Str "NA"; diff := Str "NA";
     avgf := Str "NA"; avgm := Str "NA" |}.

(** What lines 243-248 store for a species whose branch gave [r]: a row
    when the index is there and not zero, nothing otherwise. *)
Definition stored_row (v : cohort) (r : option (Q * tests)) : option result :=
  match r with
  | Some (x, t) =>
      if Qeq_bool x 0 then None
      else Some {| males := length (M v); females := length (F v);
                   ssdi := x; fields := t |}
  | None => None
  end.

(** The result for [unknown_sex_dict]: one row, for the species with one
    male of size 10 and one female of size 12. *)
Definition unknown_sex_result : gmap string result :=
  {[ "Fox"%string := {| males := 1; females := 1; ssdi := 1 # 5;
                        fields := all_NA |} ]}.

(** ** The two result files *)

(** [sorted(calc_dict.items())]: the keys are distinct, so the rows are
    ordered by species name. *)
Definition row_le (x y : string * result) : Prop :=
  Is_true (String.leb x.1 y.1).

Definition sorted_rows (calc_dict : gmap string result)
  : list (string * result) :=
  merge_sort row_le (map_to_list calc_dict).

Definition column_names : list string :=
  ["Species"; "Number_Males"; "Number_Females"; "Avg_Male"; "Avg_Female";
   "Standard_SSDi"; "Avg_Pairwise_SSDi"; "AbsDifference";
   "Dimorphism_PValue"; "2.5_percentile"; "97.5_percentile"]%string.

(** [sep.join(values)]. *)
Fixpoint join (sep : string) (values : list string) : string :=
  match values with
  | [] => EmptyString
  | [x] => x
  | x :: rest => (x ++ sep ++ join sep rest)%string
  end.

(** A line as written by the format strings of lines 404-428: the values
    separated by [sep] and ended by a newline. *)
Definition output_line (sep : string) (values : list string) : string :=
  (join sep values ++ String (ascii_of_nat 10) EmptyString)%string.

Section Output.

(** ["{}".format(n)] on an integer and on a finite float. *)
Variable str_int : nat -> string.
Variable str_float : Q -> string.

Definition format_value (x : pyval) : string :=
  match x with
  | Str s => s
  | Flt nan => "nan"%string
  | Flt (fin q) => str_float q
  end.

(** The eleven values of a row, in the order of lines 418-422. *)
Definition row_values (k : string) (r : result) : list string :=
  [k; str_int (males r); str_int (females r);
   format_value (avgm (fields r)); format_value (avgf (fields r));
   str_float (ssdi r); format_value (avg_ssdi (fields r));
   format_value (diff (fields r)); format_value (p_perm (fields r));
   format_value (low (fields r)); format_value (high (fields r))].

(** [write_output(calc_dict)], lines 386-428: the lines written to
    [SSDi-Results.txt] and to [SSDi-Results.csv]. *)
Definition write_output (calc_dict : gmap string result)
  : list string * list string :=
  let rows := sorted_rows calc_dict in
  let tab_sep := String (ascii_of_nat 9) EmptyString in
  (output_line tab_sep column_names
     :: map (fun kv => output_line tab_sep (row_values kv.1 kv.2)) rows,
   output_line "," column_names
     :: map (fun kv => output_line "," (row_values kv.1 kv.2)) rows).

End Output.

(** A row with another t-test p-value. *)
Definition with_p_pair (p : pyval) (r : result) : result :=
  {| males := males r; females := females r; ssdi := ssdi r;
     fields := {| avg_ssdi := avg_ssdi (fields r); p_pair := p;
                  low := low (fields r); high := high (fields r);
                  p_perm := p_perm (fields r); diff := diff (fields r);
                  avgf := avgf (fields r); avgm := avgm (fields r) |} |}.


(** ** The numeric engine over the arithmetic of the interpreter *)

(** What a float expression of the program evaluates to is fixed by the
    binary64 arithmetic of Python and NumPy, not by the source file.  In
    this part the float type and its operations are the fields of a
    structure [arith]; the numeric functions are embedded over it, so that
    what is proved of them holds bit for bit of any arithmetic with the
    assumed laws, infinities and [nan] included.  The sections above
    instantiate the same functions on exact rationals. *)
Module Generic.

Record arith : Type := {
  float : Type;
  (** [float(n)], also the value of an [int] operand of a float operation *)
  of_Z : Z -> float;
  (** the literal [0.001] *)
  milli : float;
  (** [x < y], [x <= y], [x == y] *)
  ltb : float -> float -> bool;
  leb : float -> float -> bool;
  eqb : float -> float -> bool;
  add : float -> float -> float;
  sub : float -> float -> float;
  mul : float -> float -> float;
  (** the quotient of the hardware; Python raises before computing it when
      the divisor is zero, NumPy does not *)
  div : float -> float -> float;
  fabs : float -> float;
  (** [round(x, nd)] on a Python float and on a NumPy scalar *)
  py_round : float -> nat -> float;
  np_round : float -> nat -> float;
  np_mean : list float -> float;
  np_percentile : list float -> Q -> float;
  (** the list left by [list.sort()] *)
  list_sort : list float -> list float;
  (** [stats.ttest_1samp(vals, popmean)[1]] *)
  ttest_1samp : list float -> float -> float
}.

(** A field of the result table. *)
Inductive pyval (A : arith) : Type :=
| Str (s : string)
| Flt (x : float A).
Arguments Str {A} s.
Arguments Flt {A} x.

(** The value stored per species. *)
Record cohort (A : arith) : Type := { M : list (float A); F : list (float A) }.
Arguments M {A} c.
Arguments F {A} c.

Record tests (A : arith) : Type := {
  avg_ssdi : pyval A; p_pair : pyval A; low : pyval A; high : pyval A;
  p_perm : pyval A; diff : pyval A; avgf : pyval A; avgm : pyval A }.
Arguments avg_ssdi {A} t.
Arguments p_pair {A} t.
Arguments low {A} t.
Arguments high {A} t.
Arguments p_perm {A} t.
Arguments diff {A} t.
Arguments avgf {A} t.
Arguments avgm {A} t.

Section Engine.

Variable A : arith.

(** [x / y].  With two Python floats a zero divisor raises; as soon as one
    operand is a NumPy scalar ([numpy = true]) the division is NumPy's. *)
Definition truediv (numpy : bool) (x y : float A) : res (float A) :=
  if negb numpy && eqb A y (of_Z A 0) then Raise ZeroDivisionError
  else Ok (div A x y).

(** [round(x, nd)]: of the float type for a Python float, NumPy's for a
    NumPy scalar. *)
Definition round (numpy : bool) (x : float A) (nd : nat) : float A :=
  if numpy then np_round A x nd else py_round A x nd.

(** [ssdi_single(f, m)], lines 252-270; [numpy] tells whether an argument
    is a NumPy scalar (a rounded mean, lines 199, 212, 225). *)
Definition ssdi_single (numpy : bool) (f m : float A) : res (float A) :=
  if ltb A f m then
    r ← truediv numpy m f;
    Ok (round numpy (mul A (of_Z A (-1)) (sub A r (of_Z A 1))) 3)
  else if ltb A m f then
    r ← truediv numpy f m;
    Ok (round numpy (sub A r (of_Z A 1)) 3)
  else if eqb A f m then
    Ok (of_Z A 0)
  else Raise UnboundLocalError.

(** The nested loops of lines 289-295. *)
Definition pairwise_vals (females males : list (float A)) : res (list (float A)) :=
  for_each females (fun f vals =>
    for_each males (fun m vals =>
      v ← ssdi_single false f m;
      Ok (vals ++ [v])) vals) [].

(** [ssdi_pairwise(females, males, ttest)], lines 273-314. *)
Definition ssdi_pairwise (females males : list (float A)) (ttest : bool)
  : res (float A * pyval A) :=
  vals ← pairwise_vals females males;
  let avg_ssdi := np_round A (np_mean A vals) 3 in
  let p :=
    if negb ttest then Str "NA"
    else
      let results1 := ttest_1samp A vals (of_Z A 0) in
      if leb A results1 (milli A) then Str "<0.001"
      else Flt (np_round A results1 3) in
  Ok (avg_ssdi, p).

(** One replicate, lines 341-350. *)
Definition bootstrap (females allsizes : list (float A)) (i : nat)
    (st : list (float A) * random_state) : res (list (float A) * random_state) :=
  let '(permuted_ssdi_vals, g) := st in
  '(randomized, g') ← random_sample allsizes (length allsizes) g;
  let newf := take (length females) randomized in
  let newm := drop (length females) randomized in
  '(perm_avg_ssdi, p) ← ssdi_pairwise newf newm false;
  Ok (permuted_ssdi_vals ++ [perm_avg_ssdi], g').

(** [len([x for x in permuted_ssdi_vals if abs(x) > abs(emp_ssdi)])]. *)
Definition exceeding (permuted_ssdi_vals : list (float A)) (emp_ssdi : float A)
  : nat :=
  length (List.filter (fun x => ltb A (fabs A emp_ssdi) (fabs A x))
            permuted_ssdi_vals).

(** The two-tailed p-value of line 359. *)
Definition ptwotail (permuted_ssdi_vals : list (float A)) (emp_ssdi : float A)
  : res (float A) :=
  q ← truediv false
        (add A (of_Z A (Z.of_nat (exceeding permuted_ssdi_vals emp_ssdi))) (of_Z A 1))
        (add A (of_Z A (Z.of_nat (length permuted_ssdi_vals))) (of_Z A 1));
  Ok (py_round A q 5).

(** Lines 361-364. *)
Definition format_pvalue (p : float A) : pyval A :=
  if leb A p (milli A) then Str "<0.001" else Flt (py_round A p 3).

(** [run_permutations(females, males, emp_ssdi)], lines 316-383. *)
Definition run_permutations (females males : list (float A)) (emp_ssdi : float A)
    (g : random_state) : res (float A * float A * pyval A * random_state) :=
  let allsizes := females ++ males in
  '(permuted_ssdi_vals, g') ←
    for_each (seq 0 n_bootstraps) (bootstrap females allsizes) ([], g);
  let permuted_ssdi_vals := list_sort A permuted_ssdi_vals in
  let low := np_round A (np_percentile A permuted_ssdi_vals (25 # 10)) 3 in
  let high := np_round A (np_percentile A permuted_ssdi_vals (975 # 10)) 3 in
  ptwotail ← ptwotail permuted_ssdi_vals emp_ssdi;
  Ok (low, high, format_pvalue ptwotail, g').

(** Lines 201-208, 214-221, 227-234. *)
Definition pairwise_tests (v : cohort A) (ssdi : float A) (avgf avgm : pyval A)
    (g : random_state) : res (tests A * random_state) :=
  '(avg_ssdi, p_pair) ← ssdi_pairwise (F v) (M v) true;
  '(low, high, p_perm, g') ← run_permutations (F v) (M v) avg_ssdi g;
  let diff := fabs A (sub A ssdi avg_ssdi) in
  Ok ({| avg_ssdi := Flt avg_ssdi; p_pair := p_pair; low := Flt low;
         high := Flt high; p_perm := p_perm; diff := Flt diff;
         avgf := avgf; avgm := avgm |}, g').

(** The branch on the two sample sizes, lines 190-240. *)
Definition species_tests (v : cohort A) (g : random_state)
  : res (option (float A * tests A) * random_state) :=
  let nF := length (F v) in
  let nM := length (M v) in
  if Nat.eqb nF 1 && Nat.eqb nM 1 then
    f0 ← getitem (F v) 0;
    m0 ← getitem (M v) 0;
    ssdi ← ssdi_single false f0 m0;
    Ok (Some (ssdi, {| avg_ssdi := Str "NA"; p_pair := Str "NA";
                       low := Str "NA"; high := Str "NA"; p_perm := Str "NA";
                       diff := Str "NA"; avgf := Str "NA"; avgm := Str "NA" |}), g)
  else if Nat.ltb 1 nF && Nat.eqb nM 1 then
    m0 ← getitem (M v) 0;
    ssdi ← ssdi_single true (np_round A (np_mean A (F v)) 1) m0;
    '(t, g') ← pairwise_tests v ssdi (Flt (np_round A (np_mean A (F v)) 1)) (Str "NA") g;
    Ok (Some (ssdi, t), g')
  else if Nat.eqb nF 1 && Nat.ltb 1 nM then
    f0 ← getitem (F v) 0;
    ssdi ← ssdi_single true f0 (np_round A (np_mean A (M v)) 1);
    '(t, g') ← pairwise_tests v ssdi (Str "NA") (Flt (np_round A (np_mean A (M v)) 1)) g;
    Ok (Some (ssdi, t), g')
  else if Nat.ltb 1 nF && Nat.ltb 1 nM then
    ssdi ← ssdi_single true (np_round A (np_mean A (F v)) 1)
                            (np_round A (np_mean A (M v)) 1);
    '(t, g') ← pairwise_tests v ssdi (Flt (np_round A (np_mean A (F v)) 1))
                 (Flt (np_round A (np_mean A (M v)) 1)) g;
    Ok (Some (ssdi, t), g')
  else Ok (None, g).

(** *** Reference definitions, following the specification *)

(** Section 4.2, precondition: sizes are strictly positive. *)
Definition positive (x : float A) : Prop := ltb A (of_Z A 0) x = true.
Definition positive_sizes (l : list (float A)) : Prop := Forall positive l.

(** Section 4.2: [ssdi(female_size, male_size)]. *)
Definition DimorphismIndex (numpy : bool) (female_size male_size : float A)
  : float A :=
  if ltb A female_size male_size then
    round numpy (mul A (of_Z A (-1))
                   (sub A (div A male_size female_size) (of_Z A 1))) 3
  else if ltb A male_size female_size then
    round numpy (sub A (div A female_size male_size) (of_Z A 1)) 3
  else of_Z A 0.

(** Section 4.3: the index of every (female, male) pair. *)
Definition cross_product (females males : list (float A)) : list (float A) :=
  flat_map (fun f => map (fun m => DimorphismIndex false f m) males) females.

(** Section 4.3: the p-value of the t-test as it is reported. *)
Definition formatted_pvalue (p : float A) : pyval A :=
  if leb A p (milli A) then Str "<0.001" else Flt (np_round A p 3).

(** Section 4.4: [x] is replicate number [i] of the permutation test begun
    in generator state [g]: the pooled sizes are rearranged by the draws
    that follow those of the earlier replicates, position by position as
    the positions [0 .. n-1] are; the first [|females|] sizes of the
    arrangement are relabelled female and the rest male, and [x] is what
    the pairwise estimator returns for that split without a t-test. *)
Definition replicate (females males : list (float A)) (g : random_state)
    (i : nat) (x : float A) : Prop :=
  let allsizes := females ++ males in
  let gi := {| draws := draws g; cursor := cursor g + i * length allsizes |} in
  exists randomized positions g',
    random_sample allsizes (length allsizes) gi = Ok (randomized, g') /\
    random_sample (seq 0 (length allsizes)) (length allsizes) gi
      = Ok (positions, g') /\
    randomized = map (fun p => nth p allsizes (of_Z A 0)) positions /\
    randomized ≡ₚ allsizes /\
    length (take (length females) randomized) = length females /\
    length (drop (length females) randomized) = length males /\
    ssdi_pairwise (take (length females) randomized)
                  (drop (length females) randomized) false = Ok (x, Str "NA").

(** Section 4.5: the size of one sex handed to the index. *)
Definition index_input (sizes : list (float A)) : float A :=
  if Nat.ltb 1 (length sizes) then np_round A (np_mean A sizes) 1
  else hd (of_Z A 0) sizes.

(** *** Laws of binary64 arithmetic used in the proofs *)

(** A value is a number when it equals itself; [nan] does not. *)
Definition number (x : float A) : Prop := eqb A x x = true.

Record arith_laws : Prop := {
  positive_number : forall x, positive x -> number x;
  positive_nonzero : forall x, positive x -> eqb A x (of_Z A 0) = false;
  (** two numbers compare one of three ways, exclusively *)
  trichotomy : forall x y, number x -> number y ->
    ltb A x y = true \/ ltb A y x = true \/ eqb A x y = true;
  ltb_asym : forall x y, ltb A x y = true -> ltb A y x = false;
  eqb_not_ltb : forall x y, eqb A x y = true ->
    ltb A x y = false /\ ltb A y x = false;
  (** the mean of positive numbers is a number, and rounding keeps one *)
  mean_number : forall l, l <> [] -> positive_sizes l -> number (np_mean A l);
  round_number : forall x nd, number x -> number (np_round A x nd);
  (** [float(n) + 1] is not zero *)
  succ_nonzero : forall n : nat,
    eqb A (add A (of_Z A (Z.of_nat n)) (of_Z A 1)) (of_Z A 0) = false;
  (** sorting rearranges *)
  sort_Permutation : forall l, list_sort A l ≡ₚ l
}.

End Engine.

End Generic.

(** Exact rational arithmetic is an arithmetic in this sense: it shows the
    laws consistent and serves to run the engine on examples.  It has no
    [nan]; the laws leave the mean of an empty list free. *)
Definition exact_arith : Generic.arith := {|
  Generic.float := Q;
  Generic.of_Z := inject_Z;
  Generic.milli := 1 # 1000;
  Generic.ltb := Qlt_bool;
  Generic.leb := Qle_bool;
  Generic.eqb := Qeq_bool;
  Generic.add := Qplus;
  Generic.sub := Qminus;
  Generic.mul := Qmult;
  Generic.div := Qdiv;
  Generic.fabs := Qabs;
  Generic.py_round := py_round;
  Generic.np_round := py_round;
  Generic.np_mean := fun l => Qsum l / inject_Z (Z.of_nat (length l));
  Generic.np_percentile := fun l q => interpolate (merge_sort Qle_rel l) q;
  Generic.list_sort := merge_sort Qle_rel;
  Generic.ttest_1samp := fun _ _ => 1 # 20
|}.

(** ** Uniform sampling *)




(** * Properties *)

Lemma Qlt_bool_iff x y : Qlt_bool x y = true <-> x < y.
Proof.
  unfold Qlt_bool. rewrite negb_true_iff, <- not_true_iff_false, Qle_bool_iff.
  split; [apply Qnot_le_lt | apply Qlt_not_le].
Qed.

Lemma Qlt_bool_false x y : Qlt_bool x y = false <-> y <= x.
Proof.
  unfold Qlt_bool. rewrite negb_false_iff. apply Qle_bool_iff.
Qed.

(** *** Rounding *)

Lemma rint_comp x y : x == y -> rint x = rint y.
Proof.
  intros E. unfold rint.
  assert (Qfloor x = Qfloor y) as -> by (now rewrite E).
  assert (Qcompare (x - inject_Z (Qfloor y)) (1 # 2)
          = Qcompare (y - inject_Z (Qfloor y)) (1 # 2)) as ->
    by (now rewrite E).
  reflexivity.
Qed.

Lemma rint_bounds x : x - (1 # 2) <= inject_Z (rint x) <= x + (1 # 2).
Proof.
  unfold rint.
  pose proof (Qfloor_le x) as Hlo. pose proof (Qlt_floor x) as Hhi.
  rewrite inject_Z_plus in Hhi. change (inject_Z 1) with 1 in Hhi.
  destruct (Qcompare_spec (x - inject_Z (Qfloor x)) (1 # 2)) as [C|C|C];
    [destruct (Z.even (Qfloor x))| |];
    rewrite ?inject_Z_plus; change (inject_Z 1) with 1; split; lra.
Qed.

Lemma rint_mono x y : x <= y -> (rint x <= rint y)%Z.
Proof.
  intros Hxy. pose proof (Qfloor_resp_le _ _ Hxy) as Hfl.
  destruct (Z.eq_dec (Qfloor x) (Qfloor y)) as [E|NE].
  - unfold rint. rewrite <- E.
    destruct (Qcompare_spec (x - inject_Z (Qfloor x)) (1 # 2)) as [Cx|Cx|Cx];
      destruct (Qcompare_spec (y - inject_Z (Qfloor x)) (1 # 2)) as [Cy|Cy|Cy];
      destruct (Z.even (Qfloor x)); try lia; exfalso; lra.
  - assert (Qfloor x + 1 <= Qfloor y)%Z as Hstep by lia.
    transitivity (Qfloor x + 1)%Z.
    + unfold rint. destruct (Qcompare _ _); destruct (Z.even (Qfloor x)); lia.
    + transitivity (Qfloor y); [exact Hstep|].
      unfold rint. destruct (Qcompare _ _); destruct (Z.even (Qfloor y)); lia.
Qed.

Lemma py_round_comp x y nd : x == y -> py_round x nd = py_round y nd.
Proof.
  intros E. unfold py_round. apply Qred_complete.
  rewrite (rint_comp (x * inject_Z (Z.pos (pow10 nd)))
                     (y * inject_Z (Z.pos (pow10 nd))));
    [reflexivity | now rewrite E].
Qed.

Lemma py_round_mono x y nd : x <= y -> py_round x nd <= py_round y nd.
Proof.
  intros Hxy. unfold py_round. rewrite !Qred_correct.
  unfold Qle; simpl. apply Z.mul_le_mono_nonneg_r; [lia|].
  apply rint_mono. apply Qmult_le_compat_r; [exact Hxy|].
  unfold Qle; simpl; lia.
Qed.

Lemma py_round_0 nd : py_round 0 nd = 0.
Proof.
  unfold py_round.
  rewrite (rint_comp (0 * inject_Z (Z.pos (pow10 nd))) 0) by ring.
  reflexivity.
Qed.

(** A value more than half a unit in the last place above zero does not
    round to zero. *)
Lemma py_round_pos x nd : 1 # (2 * pow10 nd) < x -> 0 < py_round x nd.
Proof.
  intros Hx. unfold py_round. rewrite Qred_correct.
  assert (1 # 2 < x * inject_Z (Z.pos (pow10 nd))) as Hs.
  { assert (1 # 2 == (1 # (2 * pow10 nd)) * inject_Z (Z.pos (pow10 nd))) as ->
      by (unfold Qeq, Qmult, inject_Z; simpl; lia).
    apply Qmult_lt_compat_r; [reflexivity | exact Hx]. }
  pose proof (rint_bounds (x * inject_Z (Z.pos (pow10 nd)))) as [Hlo _].
  assert (0 < inject_Z (rint (x * inject_Z (Z.pos (pow10 nd))))) as Hp by lra.
  unfold Qlt in *; simpl in *. lia.
Qed.

Lemma py_round_neg x nd : x < - (1 # (2 * pow10 nd)) -> py_round x nd < 0.
Proof.
  intros Hx. unfold py_round. rewrite Qred_correct.
  assert (x * inject_Z (Z.pos (pow10 nd)) < - (1 # 2)) as Hs.
  { assert (- (1 # 2) == (- (1 # (2 * pow10 nd))) * inject_Z (Z.pos (pow10 nd))) as ->
      by (unfold Qeq, Qmult, Qopp, inject_Z; simpl; lia).
    apply Qmult_lt_compat_r; [reflexivity | exact Hx]. }
  pose proof (rint_bounds (x * inject_Z (Z.pos (pow10 nd)))) as [_ Hhi].
  assert (inject_Z (rint (x * inject_Z (Z.pos (pow10 nd)))) < 0) as Hp by lra.
  unfold Qlt in *; simpl in *. lia.
Qed.

(** *** The dimorphism index *)

Lemma truediv_nonzero x y : ~ y == 0 -> truediv x y = Ok (x / y).
Proof.
  intros Hy. unfold truediv.
  destruct (Qeq_bool y 0) eqn:E; [|reflexivity].
  apply Qeq_bool_iff in E. contradiction.
Qed.

Lemma ssdi_single_male_larger f m :
  0 < f -> f < m -> ssdi_single f m = Ok (py_round (-1 * (m / f - 1)) 3).
Proof.
  intros Hf Hlt. unfold ssdi_single.
  rewrite (proj2 (Qlt_bool_iff f m) Hlt).
  rewrite truediv_nonzero by lra. reflexivity.
Qed.

Lemma ssdi_single_female_larger f m :
  0 < m -> m < f -> ssdi_single f m = Ok (py_round (f / m - 1) 3).
Proof.
  intros Hm Hlt. unfold ssdi_single.
  rewrite (proj2 (Qlt_bool_false f m)) by lra.
  rewrite (proj2 (Qlt_bool_iff m f) Hlt).
  rewrite truediv_nonzero by lra. reflexivity.
Qed.

Lemma ssdi_single_equal f m : f == m -> ssdi_single f m = Ok 0.
Proof.
  intros E. unfold ssdi_single.
  rewrite (proj2 (Qlt_bool_false f m)) by lra.
  rewrite (proj2 (Qlt_bool_false m f)) by lra.
  rewrite (proj2 (Qeq_bool_iff f m) E). reflexivity.
Qed.

(** On positive sizes the index never raises. *)
Lemma ssdi_single_total f m : 0 < f -> 0 < m -> exists r, ssdi_single f m = Ok r.
Proof.
  intros Hf Hm. destruct (Q_dec f m) as [[Hlt|Hgt]|E].
  - eexists. now apply ssdi_single_male_larger.
  - eexists. now apply ssdi_single_female_larger.
  - eexists. now apply ssdi_single_equal.
Qed.

Lemma Qdiv_gt_1 a b : 0 < b -> b < a -> 1 < a / b.
Proof.
  intros Hb Hab. apply Qlt_shift_div_l; [exact Hb | lra].
Qed.

(** Near-equal sizes: the ratio differs from 1 by less than half a unit in
    the third decimal, and the index of a larger male is [0], not negative. *)
Lemma ssdi_single_not_strictly_negative :
  0 < 1000 /\ 0 < 10001 # 10 /\ 1000 < 10001 # 10 /\
  ssdi_single 1000 (10001 # 10) = Ok 0 /\ ~ 0 < 0.
Proof.
  repeat split; try reflexivity. intros H; discriminate H.
Qed.

(** C4, amended.  On strictly positive sizes the index is non-positive when
    [f < m], and strictly negative as soon as the male size exceeds the
    female one by a thousandth ([m / f - 1 >= 0.001]); non-negative when
    [f > m], and strictly positive as soon as [f / m - 1 >= 0.001];
    exactly [0.0] when [f = m]. *)
Theorem ssdi_single_sign (f m : Q) :
  0 < f -> 0 < m ->
  exists r, ssdi_single f m = Ok r /\
    (f < m -> r <= 0) /\ (m < f -> 0 <= r) /\ (f == m -> r = 0) /\
    (1 # 1000 <= m / f - 1 -> r < 0) /\ (1 # 1000 <= f / m - 1 -> 0 < r).
Proof.
  intros Hf Hm. destruct (Q_dec f m) as [[Hlt|Hgt]|E].
  - pose proof (Qdiv_gt_1 m f Hf Hlt) as Hr.
    assert (f / m < 1) as Hr' by (apply Qlt_shift_div_r; lra).
    eexists; split; [now apply ssdi_single_male_larger|].
    repeat split; intros H; try lra.
    + rewrite <- (py_round_0 3). apply py_round_mono. lra.
    + apply py_round_neg. change (pow10 3) with 1000%positive.
      change (2 * 1000)%positive with 2000%positive. lra.
  - pose proof (Qdiv_gt_1 f m Hm Hgt) as Hr.
    assert (m / f < 1) as Hr' by (apply Qlt_shift_div_r; lra).
    eexists; split; [now apply ssdi_single_female_larger|].
    repeat split; intros H; try lra.
    + rewrite <- (py_round_0 3). apply py_round_mono. lra.
    + apply py_round_pos. change (pow10 3) with 1000%positive.
      change (2 * 1000)%positive with 2000%positive. lra.
  - assert (m / f == 1) as Hr by (rewrite E; field; lra).
    assert (f / m == 1) as Hr' by (rewrite E; field; lra).
    exists 0; split; [now apply ssdi_single_equal|].
    repeat split; intros H; try lra; reflexivity.
Qed.

Lemma ssdi_single_sign_witness :
  exists r, ssdi_single 10 8 = Ok r /\
    (10 < 8 -> r <= 0) /\ (8 < 10 -> 0 <= r) /\ (10 == 8 -> r = 0) /\
    (1 # 1000 <= 8 / 10 - 1 -> r < 0) /\ (1 # 1000 <= 10 / 8 - 1 -> 0 < r).
Proof.
  apply (ssdi_single_sign 10 8); reflexivity.
Defined.

(** *** Loops *)

Lemma for_each_ext {A S} (xs : list A) (body body' : A -> S -> res S) s :
  (forall x s, In x xs -> body x s = body' x s) ->
  for_each xs body s = for_each xs body' s.
Proof.
  revert s. induction xs as [|x xs IH]; intros s H; [reflexivity|].
  simpl. rewrite H by (left; reflexivity).
  destruct (body' x s) as [s'|e]; simpl; [|reflexivity].
  apply IH. intros y t Hy. apply H. right. exact Hy.
Qed.

(** A loop whose body only appends to its accumulator. *)
Lemma for_each_append {A B} (xs : list A) (g : A -> list B) acc :
  for_each xs (fun x acc => Ok (acc ++ g x)) acc = Ok (acc ++ flat_map g xs).
Proof.
  revert acc. induction xs as [|x xs IH]; intros acc; simpl.
  - now rewrite app_nil_r.
  - rewrite IH. now rewrite app_assoc.
Qed.

Lemma for_each_app {A S} (xs ys : list A) (body : A -> S -> res S) s :
  for_each (xs ++ ys) body s = s' ← for_each xs body s; for_each ys body s'.
Proof.
  revert s. induction xs as [|x xs IH]; intros s; simpl; [reflexivity|].
  destruct (body x s) as [s'|e]; simpl; [apply IH | reflexivity].
Qed.

(** *** The pairwise estimator *)

Lemma ssdi_single_DimorphismIndex f m :
  0 < f -> 0 < m -> ssdi_single f m = Ok (DimorphismIndex f m).
Proof.
  intros Hf Hm. unfold DimorphismIndex.
  destruct (Qlt_bool f m) eqn:E1.
  - apply Qlt_bool_iff in E1. rewrite ssdi_single_male_larger by assumption.
    apply (f_equal Ok), py_round_comp. ring.
  - destruct (Qlt_bool m f) eqn:E2.
    + apply Qlt_bool_iff in E2. now apply ssdi_single_female_larger.
    + apply Qlt_bool_false in E1, E2. apply ssdi_single_equal.
      now apply Qle_antisym.
Qed.

Lemma pairwise_vals_cross_product females males :
  positive_sizes females -> positive_sizes males ->
  pairwise_vals females males = Ok (cross_product females males).
Proof.
  intros HF HM. unfold pairwise_vals, cross_product.
  rewrite (for_each_ext females _
             (fun f vals => Ok (vals ++ map (fun m => DimorphismIndex f m) males))).
  - now rewrite for_each_append.
  - intros f vals Hf.
    pose proof (proj1 (List.Forall_forall _ _) HF f Hf) as Hpos.
    rewrite (for_each_ext males _ (fun m vals => Ok (vals ++ [DimorphismIndex f m]))).
    + rewrite for_each_append.
      replace (flat_map (fun m => [DimorphismIndex f m]) males)
        with (map (fun m => DimorphismIndex f m) males); [reflexivity|].
      clear. induction males as [|m ms IH]; simpl; congruence.
    + intros m acc Hm.
      pose proof (proj1 (List.Forall_forall _ _) HM m Hm) as Hpos'.
      now rewrite ssdi_single_DimorphismIndex.
Qed.

Lemma cross_product_length females males :
  length (cross_product females males) = (length females * length males)%nat.
Proof.
  unfold cross_product. induction females as [|f fs IH]; simpl; [reflexivity|].
  rewrite length_app, length_map, IH. reflexivity.
Qed.

Lemma cross_product_nonempty females males :
  females <> [] -> males <> [] -> cross_product females males <> [].
Proof.
  intros HF HM E. apply (f_equal length) in E.
  rewrite cross_product_length in E.
  destruct females, males; simpl in *; congruence.
Qed.

Section PairwiseProperties.

Variable ttest_1samp : list Q -> Q -> npfloat.

Lemma ssdi_pairwise_outcome females males (ttest : bool) :
  positive_sizes females -> positive_sizes males ->
  ssdi_pairwise ttest_1samp females males ttest
    = Ok (average_pairwise females males,
          if ttest
          then formatted_pvalue (ttest_1samp (cross_product females males) 0)
          else Str "NA").
Proof.
  intros HF HM. unfold ssdi_pairwise.
  rewrite pairwise_vals_cross_product by assumption.
  destruct ttest; reflexivity.
Qed.

(** C8, amended.  With the t-test requested, whenever the estimator
    returns, the p-value it returns is never ["NA"]: it is ["<0.001"]
    when the test's p-value is at most 0.001 and a float otherwise,
    [nan] when the test yields [nan]. *)
Theorem ssdi_pairwise_pvalue_not_NA (females males : list Q)
    (avg : npfloat) (p : pyval) :
  ssdi_pairwise ttest_1samp females males true = Ok (avg, p) ->
  p <> Str "NA" /\
  exists vals, pairwise_vals females males = Ok vals /\
    (np_leb (ttest_1samp vals 0) (fin (1 # 1000)) = true -> p = Str "<0.001") /\
    (np_leb (ttest_1samp vals 0) (fin (1 # 1000)) = false -> exists x, p = Flt x) /\
    (ttest_1samp vals 0 = nan -> p = Flt nan).
Proof.
  unfold ssdi_pairwise.
  destruct (pairwise_vals females males) as [vals|e];
    cbn [mbind res_bind negb]; [|intros X; discriminate X].
  intros [= <- <-]. split.
  - destruct (np_leb _ _); discriminate.
  - exists vals. split; [reflexivity|]. split; [|split].
    + intros ->. reflexivity.
    + intros ->. eexists. reflexivity.
    + intros ->. reflexivity.
Qed.

End PairwiseProperties.

Lemma ssdi_pairwise_pvalue_not_NA_witness :
  Flt nan <> Str "NA" /\
  exists vals, pairwise_vals [10; 10] [8] = Ok vals /\
    (np_leb nan (fin (1 # 1000)) = true -> Flt nan = Str "<0.001") /\
    (np_leb nan (fin (1 # 1000)) = false -> exists x, Flt nan = Flt x) /\
    (nan = nan -> Flt nan = Flt nan).
Proof.
  apply (ssdi_pairwise_pvalue_not_NA (fun _ _ => nan) [10; 10] [8]
           (fin (1 # 4)) (Flt nan)).
  reflexivity.
Defined.

(** Two females of one size and one male: the two pairwise values are
    both [0.25], a sample of zero variance; whatever the t-test returns
    for it, the p-value handed back is not the sentinel ["NA"]. *)
Lemma ssdi_pairwise_zero_variance_not_NA :
  pairwise_vals [10; 10] [8] = Ok [1 # 4; 1 # 4] /\
  ~ exists (ttest_1samp : list Q -> Q -> npfloat) avg,
      ssdi_pairwise ttest_1samp [10; 10] [8] true = Ok (avg, Str "NA").
Proof.
  split; [reflexivity|].
  intros (tt & avg & H). unfold ssdi_pairwise in H.
  change (pairwise_vals [10; 10] [8]) with (Ok [1 # 4; 1 # 4]) in H.
  cbn [mbind res_bind negb] in H.
  destruct (np_leb _ _); discriminate H.
Qed.

(** *** The random source *)

Lemma getitem_lookup {A} (l : list A) i x : l !! i = Some x -> getitem l i = Ok x.
Proof. intros H. unfold getitem. now rewrite H. Qed.

Lemma swap_out_Permutation {A} (l : list A) j x y :
  l !! j = Some x -> x :: <[j := y]> l ≡ₚ l ++ [y].
Proof.
  intros H.
  assert (l ≡ₚ x :: take j l ++ drop (S j) l) as E.
  { rewrite Permutation_middle. now rewrite take_drop_middle. }
  rewrite insert_take_drop by (eapply lookup_lt_Some; eauto).
  transitivity (y :: x :: take j l ++ drop (S j) l).
  - rewrite <- Permutation_middle. apply perm_swap.
  - rewrite <- Permutation_cons_append. apply perm_skip. symmetry. exact E.
Qed.

(** One selection: taking [pool[j]] and moving the last live element to
    slot [j] leaves the other live elements in the shorter pool. *)
Lemma sample_step_Permutation {A} (pool : list A) s j x y :
  (j < S s)%nat -> pool !! j = Some x -> pool !! s = Some y ->
  x :: take s (<[j := y]> pool) ≡ₚ take (S s) pool.
Proof.
  intros Hj Hx Hy. rewrite (take_S_r pool s y Hy).
  destruct (decide (j = s)) as [E|Hne].
  - rewrite E in *. rewrite list_insert_id by exact Hy.
    replace x with y by congruence.
    apply Permutation_cons_append.
  - rewrite take_insert_lt by lia. apply swap_out_Permutation.
    rewrite lookup_take_lt by lia. exact Hx.
Qed.

(** The selection loop returns, after what was already chosen, an
    arrangement of the live part of the pool, and consumes one draw per
    element. *)
Lemma sample_loop_Permutation {A} steps : forall i n (pool result : list A) g,
  (i + steps = n)%nat -> length pool = n ->
  exists picked g',
    sample_loop steps i n pool result g = Ok (result ++ picked, g') /\
    picked ≡ₚ take steps pool /\
    draws g' = draws g /\ cursor g' = (cursor g + steps)%nat.
Proof.
  induction steps as [|s IH]; intros i n pool result g Hn Hlen.
  - exists [], g. simpl. rewrite app_nil_r, Nat.add_0_r. repeat split.
    now rewrite take_0.
  - cbn [sample_loop randbelow]. replace (n - i)%nat with (S s) by lia.
    replace (S s - 1)%nat with s by lia.
    set (j := (draws g (cursor g) `mod` S s)%nat).
    assert (j < S s)%nat as Hj by (apply Nat.mod_upper_bound; lia).
    destruct (lookup_lt_is_Some_2 pool j) as [x Hx]; [lia|].
    destruct (lookup_lt_is_Some_2 pool s) as [y Hy]; [lia|].
    rewrite (getitem_lookup _ _ _ Hx), (getitem_lookup _ _ _ Hy).
    cbn [mbind res_bind].
    destruct (IH (S i) n (<[j := y]> pool) (result ++ [x])
                {| draws := draws g; cursor := S (cursor g) |})
      as (picked & g' & Hrun & Hperm & Hd & Hc);
      [lia | now rewrite length_insert |].
    exists (x :: picked), g'. rewrite Hrun, <- app_assoc.
    cbn [draws cursor] in Hd, Hc.
    repeat split; [| exact Hd | lia].
    rewrite Hperm. now apply sample_step_Permutation.
Qed.

(** [random.sample(l, len(l))] never raises and returns an arrangement of
    [l]. *)
Lemma random_sample_Permutation {A} (l : list A) g :
  exists randomized g',
    random_sample l (length l) g = Ok (randomized, g') /\
    randomized ≡ₚ l /\
    draws g' = draws g /\ cursor g' = (cursor g + length l)%nat.
Proof.
  unfold random_sample. rewrite Nat.ltb_irrefl.
  destruct (sample_loop_Permutation (length l) 0 (length l) l [] g)
    as (picked & g' & Hrun & Hperm & Hd & Hc); [lia | reflexivity |].
  exists picked, g'. rewrite Hrun. repeat split; try assumption.
  now rewrite Hperm, firstn_all.
Qed.

(** Every arrangement of the live part of the pool is produced by some
    draws: the map from in-range draw sequences to arrangements is onto,
    which is what makes uniform draws yield uniform arrangements. *)
Lemma sample_loop_onto {A} steps : forall i n (pool result target : list A),
  (i + steps = n)%nat -> length pool = n ->
  target ≡ₚ take steps pool ->
  exists dl : list nat, length dl = steps /\
    forall g, (forall k, (k < steps)%nat -> draws g (cursor g + k)%nat = nth k dl 0%nat) ->
    exists g', sample_loop steps i n pool result g = Ok (result ++ target, g').
Proof.
  induction steps as [|s IH]; intros i n pool result target Hn Hlen Hperm.
  - rewrite take_0 in Hperm. apply Permutation_nil_r in Hperm. subst target.
    exists []. split; [reflexivity|]. intros g _. exists g.
    simpl. now rewrite app_nil_r.
  - destruct target as [|x target'].
    { apply Permutation_length in Hperm. rewrite length_take in Hperm.
      cbn [length] in Hperm. lia. }
    assert (x ∈ take (S s) pool) as Hin by (rewrite <- Hperm; left).
    apply list_elem_of_lookup_1 in Hin as [j Hj].
    pose proof (lookup_lt_Some _ _ _ Hj) as Hjs. rewrite length_take in Hjs.
    assert (j < S s)%nat as Hjlt by lia.
    rewrite lookup_take_lt in Hj by assumption.
    destruct (lookup_lt_is_Some_2 pool s) as [y Hy]; [lia|].
    destruct (IH (S i) n (<[j := y]> pool) (result ++ [x]) target')
      as (dl & Hdl & Hrun); [lia | now rewrite length_insert | |].
    { apply (Permutation_cons_inv (a := x)). rewrite Hperm. symmetry.
      now apply sample_step_Permutation. }
    exists (j :: dl). split; [simpl; congruence|]. intros g Hg.
    cbn [sample_loop randbelow]. replace (n - i)%nat with (S s) by lia.
    replace (S s - 1)%nat with s by lia.
    pose proof (Hg 0%nat ltac:(lia)) as H0. rewrite Nat.add_0_r in H0.
    cbn [nth] in H0. rewrite H0, (Nat.mod_small j (S s)) by assumption.
    rewrite (getitem_lookup _ _ _ Hj), (getitem_lookup _ _ _ Hy).
    cbn [mbind res_bind].
    destruct (Hrun {| draws := draws g; cursor := S (cursor g) |}) as [g' Hg'].
    { intros k Hk. cbn [draws cursor].
      replace (S (cursor g) + k)%nat with (cursor g + S k)%nat by lia.
      rewrite Hg by lia. reflexivity. }
    exists g'. rewrite Hg', <- app_assoc. reflexivity.
Qed.

Lemma random_sample_onto {A} (l target : list A) :
  target ≡ₚ l ->
  exists g g', random_sample l (length l) g = Ok (target, g').
Proof.
  intros Hperm.
  destruct (sample_loop_onto (length l) 0 (length l) l [] target)
    as (dl & _ & Hrun); [lia | reflexivity | now rewrite firstn_all |].
  destruct (Hrun {| draws := fun k => nth k dl 0%nat; cursor := 0 |}) as [g' Hg'];
    [intros k _; reflexivity|].
  eexists _, g'. unfold random_sample. rewrite Nat.ltb_irrefl. exact Hg'.
Qed.

(** *** Sorting and percentiles *)

Lemma Qle_rel_iff x y : Qle_rel x y <-> x <= y.
Proof. unfold Qle_rel. rewrite Is_true_true. apply Qle_bool_iff. Qed.

#[local] Instance Qle_rel_total : Total Qle_rel.
Proof.
  intros x y. rewrite !Qle_rel_iff.
  destruct (Qlt_le_dec x y); [left; lra | right; assumption].
Qed.

#[local] Instance Qle_rel_trans : Transitive Qle_rel.
Proof. intros x y z. rewrite !Qle_rel_iff. apply Qle_trans. Qed.

Lemma StronglySorted_nth (s : list Q) : StronglySorted Qle_rel s ->
  forall i j, (i <= j < length s)%nat -> nth i s 0 <= nth j s 0.
Proof.
  induction 1 as [|x s Hs IH Hx]; intros i j Hij; simpl in Hij; [lia|].
  destruct i as [|i], j as [|j]; simpl; try lia.
  - apply Qle_refl.
  - apply Qle_rel_iff. eapply (proj1 (List.Forall_forall _ _) Hx).
    apply nth_In. lia.
  - apply IH. lia.
Qed.

Lemma interpolate_mono (s : list Q) (q1 q2 : Q) :
  StronglySorted Qle_rel s -> s <> [] ->
  0 <= q1 -> q1 <= q2 -> q2 <= 100 ->
  interpolate s q1 <= interpolate s q2.
Proof.
  intros Hs Hne H0 H12 H100. unfold interpolate.
  assert (0 < length s)%nat as Hlen by (destruct s; simpl; [congruence | lia]).
  set (n1 := inject_Z (Z.of_nat (length s - 1))).
  assert (0 <= n1) as Hn1.
  { unfold n1. change 0 with (inject_Z 0). rewrite <- Zle_Qle. lia. }
  assert (q1 / 100 == q1 * (1 # 100)) as Ep1 by field.
  assert (q2 / 100 == q2 * (1 # 100)) as Ep2 by field.
  set (p1 := q1 / 100) in *. set (p2 := q2 / 100) in *.
  set (v1 := n1 * p1). set (v2 := n1 * p2).
  assert (0 <= v1) as Hv1 by (unfold v1; nra).
  assert (v1 <= v2) as Hv12 by (unfold v1, v2; nra).
  assert (v2 <= n1) as Hv2 by (unfold v2; nra).
  pose proof (Qfloor_le v1) as Hf1. pose proof (Qlt_floor v1) as Hc1.
  pose proof (Qfloor_le v2) as Hf2. pose proof (Qlt_floor v2) as Hc2.
  rewrite inject_Z_plus in Hc1, Hc2. change (inject_Z 1) with 1 in Hc1, Hc2.
  pose proof (Qfloor_resp_le _ _ Hv12) as Hfl.
  assert (0 <= Qfloor v1)%Z as Hz1.
  { rewrite <- (Qfloor_Z 0). now apply Qfloor_resp_le. }
  assert (Qfloor v2 <= Z.of_nat (length s - 1))%Z as Hz2.
  { rewrite <- (Qfloor_Z (Z.of_nat (length s - 1))). now apply Qfloor_resp_le. }
  set (lo1 := Z.to_nat (Qfloor v1)). set (lo2 := Z.to_nat (Qfloor v2)).
  assert (lo1 <= lo2)%nat as Hlo by (unfold lo1, lo2; lia).
  assert (lo2 <= length s - 1)%nat as Hlo2 by (unfold lo2; lia).
  set (hi1 := Nat.min (lo1 + 1) (length s - 1)).
  set (hi2 := Nat.min (lo2 + 1) (length s - 1)).
  pose proof (StronglySorted_nth s Hs lo1 hi1 ltac:(unfold hi1; lia)) as Ha1.
  pose proof (StronglySorted_nth s Hs lo2 hi2 ltac:(unfold hi2; lia)) as Ha2.
  destruct (Z.eq_dec (Qfloor v1) (Qfloor v2)) as [E|NE].
  - assert (lo1 = lo2) as El by (unfold lo1, lo2; congruence).
    assert (hi1 = hi2) as Eh by (unfold hi1, hi2; congruence).
    rewrite <- El, <- Eh, <- E. nra.
  - assert (hi1 <= lo2)%nat as Hhl by (unfold hi1, lo1, lo2; lia).
    pose proof (StronglySorted_nth s Hs hi1 lo2 ltac:(lia)) as Hmid.
    nra.
Qed.

Lemma np_sort_le_fin x y : np_sort_le (fin x) (fin y) <-> x <= y.
Proof. unfold np_sort_le. simpl. rewrite Is_true_true. apply Qle_bool_iff. Qed.

Lemma all_fin_Some (l : list npfloat) qs :
  all_fin l = Some qs <-> l = map fin qs.
Proof.
  revert qs. induction l as [|[|q] l IH]; intros qs; simpl.
  - split; [intros [= <-]; reflexivity | destruct qs; [reflexivity | discriminate]].
  - split; [discriminate | destruct qs; discriminate].
  - destruct (all_fin l) as [qs'|] eqn:E; simpl.
    + split.
      * intros [= <-]. simpl. f_equal. now apply IH.
      * destruct qs as [|q' qs]; [discriminate|]. intros [= -> H].
        f_equal. f_equal. apply IH in H. congruence.
    + split; [discriminate|].
      destruct qs as [|q' qs]; [discriminate|]. intros [= -> H].
      apply IH in H. discriminate.
Qed.

Lemma all_fin_Permutation (l l' : list npfloat) qs :
  l ≡ₚ l' -> all_fin l = Some qs ->
  exists qs', all_fin l' = Some qs' /\ qs ≡ₚ qs'.
Proof.
  intros Hp H. apply all_fin_Some in H. subst l.
  symmetry in Hp. apply Permutation_map_inv in Hp as (qs' & -> & Hp').
  exists qs'. split; [now apply all_fin_Some | now symmetry].
Qed.

(** On a sample without [nan] the two percentile bounds are finite and in
    order. *)
Lemma np_percentile_bounds (a : list npfloat) qs :
  all_fin a = Some qs -> qs <> [] ->
  exists lo hi,
    np_percentile a (25 # 10) = fin lo /\
    np_percentile a (975 # 10) = fin hi /\ lo <= hi.
Proof.
  intros Ha Hne. unfold np_percentile. rewrite Ha.
  destruct qs as [|q qs]; [congruence|].
  eexists _, _. split; [reflexivity|]. split; [reflexivity|].
  apply (interpolate_mono (merge_sort Qle_rel (q :: qs)) (25 # 10) (975 # 10)).
  - apply StronglySorted_merge_sort; apply _.
  - intros E. apply (f_equal length) in E.
    rewrite (Permutation_length (merge_sort_Permutation Qle_rel (q :: qs))) in E.
    discriminate E.
  - discriminate.
  - discriminate.
  - discriminate.
Qed.

(** *** The permutation test *)

Lemma positive_sizes_Permutation l l' :
  l ≡ₚ l' -> positive_sizes l -> positive_sizes l'.
Proof. intros Hp H. unfold positive_sizes in *. now rewrite <- Hp. Qed.

Lemma average_pairwise_fin females males :
  females <> [] -> males <> [] ->
  exists q, average_pairwise females males = fin q.
Proof.
  intros HF HM. unfold average_pairwise, np_mean.
  pose proof (cross_product_nonempty females males HF HM) as Hne.
  destruct (cross_product females males); [congruence|].
  eexists. reflexivity.
Qed.

Lemma filter_length_Permutation {A} (f : A -> bool) (l l' : list A) :
  l ≡ₚ l' -> length (List.filter f l) = length (List.filter f l').
Proof.
  induction 1 as [|x l l' _ IH|x y l|l l' l'' _ IH1 _ IH2]; simpl.
  - reflexivity.
  - destruct (f x); simpl; congruence.
  - destruct (f x), (f y); reflexivity.
  - congruence.
Qed.

Section PermutationProperties.

Variable ttest_1samp : list Q -> Q -> npfloat.

Lemma ssdi_pairwise_no_ttest females males :
  positive_sizes females -> positive_sizes males ->
  ssdi_pairwise ttest_1samp females males false
    = Ok (average_pairwise females males, Str "NA").
Proof.
  intros HF HM. unfold ssdi_pairwise.
  now rewrite pairwise_vals_cross_product.
Qed.

(** One pass through the loop body appends one replicate and consumes
    one draw per pooled size. *)
Lemma bootstrap_replicate females males i vals g :
  females <> [] -> males <> [] ->
  positive_sizes (females ++ males) ->
  exists q g',
    bootstrap ttest_1samp females (females ++ males) i (vals, g)
      = Ok (vals ++ [fin q], g') /\
    replicate females males g 0 (fin q) /\
    draws g' = draws g /\
    cursor g' = (cursor g + length (females ++ males))%nat.
Proof.
  intros HF HM Hpos. unfold bootstrap.
  destruct (random_sample_Permutation (females ++ males) g)
    as (randomized & g' & Hrun & Hperm & Hd & Hc).
  rewrite Hrun. cbn [mbind res_bind].
  pose proof (Permutation_length Hperm) as Hlen. rewrite length_app in Hlen.
  assert (positive_sizes randomized) as Hr
    by (eapply positive_sizes_Permutation; [symmetry|]; eassumption).
  assert (positive_sizes (take (length females) randomized)) as Hpf
    by (apply Forall_take, Hr).
  assert (positive_sizes (drop (length females) randomized)) as Hpm
    by (apply Forall_drop, Hr).
  rewrite ssdi_pairwise_no_ttest by assumption. cbn [mbind res_bind].
  assert (length (take (length females) randomized) = length females) as Lf
    by (rewrite length_take; lia).
  assert (length (drop (length females) randomized) = length males) as Lm
    by (rewrite length_drop; lia).
  destruct (average_pairwise_fin (take (length females) randomized)
              (drop (length females) randomized)) as [q Hq].
  { intros E. rewrite E in Lf. destruct females; simpl in *; congruence. }
  { intros E. rewrite E in Lm. destruct males; simpl in *; congruence. }
  exists q, g'. rewrite Hq. repeat split; try assumption.
  exists randomized, g'. rewrite <- Hq. repeat split; try assumption.
  rewrite Nat.mul_0_l, Nat.add_0_r. destruct g; exact Hrun.
Qed.

Lemma replicate_shift females males g g1 j x :
  draws g1 = draws g ->
  cursor g1 = (cursor g + length (females ++ males))%nat ->
  replicate females males g1 j x -> replicate females males g (S j) x.
Proof.
  intros Hd Hc (randomized & g' & Hrun & H). exists randomized, g'.
  split; [|exact H]. rewrite <- Hrun, Hd, Hc. do 2 f_equal. lia.
Qed.

(** The loop builds the null distribution one replicate at a time. *)
Lemma bootstrap_loop females males n : forall a vals g,
  females <> [] -> males <> [] ->
  positive_sizes (females ++ males) ->
  exists qs g',
    for_each (seq a n) (bootstrap ttest_1samp females (females ++ males)) (vals, g)
      = Ok (vals ++ map fin qs, g') /\
    length qs = n /\
    (forall i x, map fin qs !! i = Some x -> replicate females males g i x) /\
    draws g' = draws g /\
    cursor g' = (cursor g + n * length (females ++ males))%nat.
Proof.
  induction n as [|n IH]; intros a vals g HF HM Hpos.
  - exists [], g. simpl. rewrite app_nil_r. repeat split; [|lia].
    intros i x H. discriminate H.
  - cbn [seq for_each].
    destruct (bootstrap_replicate females males a vals g HF HM Hpos)
      as (q & g1 & Hstep & Hrep & Hd1 & Hc1).
    rewrite Hstep. cbn [mbind res_bind].
    destruct (IH (S a) (vals ++ [fin q]) g1 HF HM Hpos)
      as (qs & g' & Hrun & Hlen & Hall & Hd & Hc).
    exists (q :: qs), g'. rewrite Hrun, <- app_assoc.
    repeat split; simpl; [congruence | | congruence | lia].
    intros [|i] x H; simpl in H.
    + injection H as <-. exact Hrep.
    + eapply replicate_shift; eauto.
Qed.

Lemma list_sort_fin (qs : list Q) :
  exists qs', list_sort (map fin qs) = map fin qs' /\ qs ≡ₚ qs'.
Proof.
  pose proof (merge_sort_Permutation np_sort_le (map fin qs)) as Hp.
  destruct (all_fin_Permutation (map fin qs) (list_sort (map fin qs)) qs)
    as (qs' & H & Hp'); [now symmetry | now apply all_fin_Some |].
  exists qs'. split; [now apply all_fin_Some | exact Hp'].
Qed.

Lemma ptwotail_two_tailed_pvalue (null : list npfloat) emp :
  length null = n_bootstraps ->
  ptwotail (list_sort null) emp = two_tailed_pvalue null emp.
Proof.
  intros Hlen. unfold ptwotail, two_tailed_pvalue.
  pose proof (merge_sort_Permutation np_sort_le null) as Hp. fold (list_sort null) in Hp.
  rewrite (Permutation_length Hp), Hlen.
  rewrite (filter_length_Permutation _ _ _ Hp).
  unfold n_bootstraps. rewrite Z2Nat.id by lia. reflexivity.
Qed.

(** The outcome of the whole test on non-empty positive samples. *)
Lemma run_permutations_outcome females males emp g :
  females <> [] -> males <> [] ->
  positive_sizes females -> positive_sizes males ->
  exists qs g' lo hi,
    for_each (seq 0 n_bootstraps)
      (bootstrap ttest_1samp females (females ++ males)) ([], g)
      = Ok (map fin qs, g') /\
    length qs = n_bootstraps /\
    (forall i x, map fin qs !! i = Some x -> replicate females males g i x) /\
    run_permutations ttest_1samp females males emp g
      = Ok (fin lo, fin hi,
            formatted_pvalue (fin (two_tailed_pvalue (map fin qs) emp)), g') /\
    lo <= hi.
Proof.
  intros HF HM HpF HpM.
  assert (positive_sizes (females ++ males)) as Hpos by now apply Forall_app.
  destruct (bootstrap_loop females males n_bootstraps 0 [] g HF HM Hpos)
    as (qs & g' & Hrun & Hlen & Hall & _ & _).
  rewrite app_nil_l in Hrun.
  destruct (list_sort_fin qs) as (qs' & Hsort & Hperm).
  destruct (np_percentile_bounds (map fin qs') qs') as (lo & hi & Hlo & Hhi & Hle).
  { now apply all_fin_Some. }
  { intros ->. apply Permutation_length in Hperm. simpl in Hperm.
    rewrite Hlen in Hperm. discriminate Hperm. }
  exists qs, g', (py_round lo 3), (py_round hi 3).
  split; [exact Hrun|]. split; [exact Hlen|]. split; [exact Hall|].
  split; [|now apply py_round_mono].
  unfold run_permutations. rewrite Hrun. cbn [mbind res_bind].
  rewrite ptwotail_two_tailed_pvalue by (now rewrite length_map).
  rewrite Hsort, Hlo, Hhi. reflexivity.
Qed.

End PermutationProperties.

(** *** The per-species driver *)

Section DriverProperties.

Variable ttest_1samp : list Q -> Q -> npfloat.

(** The analyses shared by the three branches with pairs to compare. *)
Lemma pairwise_tests_outcome (v : cohort) (x : Q) (af am : pyval) g :
  F v <> [] -> M v <> [] ->
  positive_sizes (F v) -> positive_sizes (M v) ->
  exists t g',
    pairwise_tests ttest_1samp v x af am g = Ok (t, g') /\
    avg_ssdi t = Flt (average_pairwise (F v) (M v)) /\
    p_pair t = formatted_pvalue (ttest_1samp (cross_product (F v) (M v)) 0) /\
    diff t = Flt (np_abs (np_sub (fin x) (average_pairwise (F v) (M v)))) /\
    avgf t = af /\ avgm t = am /\
    (exists lo hi p, low t = Flt (fin lo) /\ high t = Flt (fin hi) /\
                     p_perm t = p /\ lo <= hi).
Proof.
  intros HF HM HpF HpM. unfold pairwise_tests.
  rewrite ssdi_pairwise_outcome by assumption. cbn [mbind res_bind].
  destruct (run_permutations_outcome ttest_1samp (F v) (M v)
              (average_pairwise (F v) (M v)) g HF HM HpF HpM)
    as (qs & g' & lo & hi & _ & _ & _ & Hrun & Hle).
  rewrite Hrun. cbn [mbind res_bind].
  eexists _, g'. split; [reflexivity|]. cbn.
  repeat split. exists lo, hi. eexists. repeat split. exact Hle.
Qed.

End DriverProperties.

(** *** Record aggregation *)

Section IngestionProperties.

Variable float_of_string : string -> option Q.

Local Abbreviation process_line := (process_line float_of_string).
Local Abbreviation input_to_dict := (input_to_dict float_of_string).


Lemma process_line_unparseable fmt line st :
  unparseable_size float_of_string fmt line ->
  process_line fmt line st = Raise ValueError.
Proof.
  intros (Hne & col2 & Hcol & Hnone). destruct st as [d log].
  unfold process_line, float, getitem. fold (columns fmt line).
  rewrite Hne.
  destruct (columns fmt line) as [|c0 [|c1 [|c2 cols]]]; try discriminate.
  injection Hcol as ->. cbn. now rewrite Hnone.
Qed.



End IngestionProperties.



Lemma classic_record fmt s line : record_of fmt s line \/ ~ record_of fmt s line.
Proof.
  unfold record_of.
  destruct (nonempty (strip line)); [|right; intros (? & _); discriminate].
  destruct (le_lt_dec 3 (length (columns fmt line))) as [Hge|Hlt];
    [|right; intros (_ & ? & _); lia].
  destruct (decide (columns fmt line !! 0%nat = Some s)) as [E|NE];
    [left; auto | right; intros (_ & _ & ?); contradiction].
Qed.

Section AggregationProperties.

Variable float_of_string : string -> option Q.

Local Abbreviation process_line := (process_line float_of_string).
Local Abbreviation input_to_dict := (input_to_dict float_of_string).

(** What one line does to the entry of the species [s]. *)
Lemma process_line_lookup fmt line d log d' log' s :
  process_line fmt line (d, log) = Ok (d', log') ->
  (~ record_of fmt s line -> d' !! s = d !! s) /\
  (record_of fmt s line -> unrecognized_sex fmt line ->
     d' !! s = Some (default empty_cohort (d !! s))) /\
  (is_Some (d !! s) -> is_Some (d' !! s)).
Proof.
  unfold process_line, float, getitem, record_of, unrecognized_sex.
  fold (columns fmt line).
  destruct (nonempty (strip line)) eqn:Hne.
  2:{ intros [= <- <-]. repeat split; auto. intros (? & _); discriminate. }
  destruct (Nat.ltb_spec (length (columns fmt line)) 3) as [Hlt|Hge].
  { intros [= <- <-]. repeat split; auto. intros (_ & ? & _); lia. }
  destruct (columns fmt line) as [|c0 [|c1 [|c2 cols]]]; simpl in Hge; try lia.
  cbn. destruct (float_of_string c2) as [size|]; cbn; [|discriminate].
  intros H. destruct (decide (c0 = s)) as [->|Hne0].
  - split; [intros Hn; exfalso; apply Hn; repeat split; simpl; lia|].
    split.
    + intros _ Hun. destruct (Hun c1 eq_refl) as [HM HF].
      apply String.eqb_neq in HM, HF. rewrite HM, HF in H.
      destruct (d !! s) eqn:Hd; injection H as <- <-.
      * exact Hd.
      * apply lookup_insert_eq.
    + intros Hs.
      destruct (d !! s) eqn:Hd; [|destruct Hs; discriminate].
      destruct (String.eqb (upper c1) "M"), (String.eqb (upper c1) "F");
        injection H as <- <-; rewrite ?lookup_alter_eq, ?Hd; eauto.
  - assert (d' !! s = d !! s) as E.
    { destruct (d !! c0) eqn:Hd;
        destruct (String.eqb (upper c1) "M"), (String.eqb (upper c1) "F");
        injection H as <- <-;
        rewrite ?lookup_alter_ne, ?lookup_insert_ne by assumption; reflexivity. }
    rewrite E. repeat split; auto.
    intros (_ & _ & [= ?]). contradiction.
Qed.

(** Once created, an entry stays. *)
Lemma for_each_lookup_is_Some fmt lines : forall d log d' log' s,
  for_each lines (process_line fmt) (d, log) = Ok (d', log') ->
  is_Some (d !! s) -> is_Some (d' !! s).
Proof.
  induction lines as [|l lines IH]; intros d log d' log' s; cbn [for_each].
  - now intros [= <- <-].
  - destruct (process_line fmt l (d, log)) as [[d1 log1]|e] eqn:E; cbn;
      [|intros X; discriminate X].
    intros H Hs. eapply IH; [exact H|].
    now apply (process_line_lookup _ _ _ _ _ _ s E).
Qed.

(** Lines that are not records of [s] leave its entry alone; records of
    [s] with an unrecognised sex token create it empty or leave it alone. *)
Lemma for_each_lookup_unrecognized fmt lines : forall d log d' log' s,
  for_each lines (process_line fmt) (d, log) = Ok (d', log') ->
  (forall l, In l lines -> record_of fmt s l -> unrecognized_sex fmt l) ->
  (d' !! s = d !! s /\ forall l, In l lines -> ~ record_of fmt s l) \/
  (d' !! s = Some (default empty_cohort (d !! s)) /\
   exists l, In l lines /\ record_of fmt s l).
Proof.
  induction lines as [|l lines IH]; intros d log d' log' s; cbn [for_each].
  - intros [= <- <-] _. left. split; [reflexivity | intros ? []].
  - destruct (process_line fmt l (d, log)) as [[d1 log1]|e] eqn:E; cbn;
      [|intros X; discriminate X].
    intros H Hun.
    destruct (process_line_lookup _ _ _ _ _ _ s E) as (Hnot & Hrec & _).
    destruct (IH d1 log1 d' log' s H) as [[E1 Hno]|[E1 (l' & Hin & Hl')]];
      [intros; apply Hun; auto | |].
    + destruct (classic_record fmt s l) as [Hr|Hr].
      * right. split; [|exists l; auto].
        rewrite E1. apply Hrec; [exact Hr | apply Hun; auto].
      * left. rewrite E1, Hnot by exact Hr. split; [reflexivity|].
        intros l0 [<-|Hin]; auto.
    + right. split; [|exists l'; auto].
      rewrite E1. destruct (classic_record fmt s l) as [Hr|Hr].
      * rewrite Hrec by (try apply Hun; auto). reflexivity.
      * now rewrite Hnot.
Qed.

End AggregationProperties.

(** *** Rows of the result table *)

Section ResultProperties.

Variable ttest_1samp : list Q -> Q -> npfloat.

Local Abbreviation species_tests := (species_tests ttest_1samp).
Local Abbreviation species_step := (species_step ttest_1samp).
Local Abbreviation run_ssdi_calculations := (run_ssdi_calculations ttest_1samp).

(** An index is computed only with at least one entry of each sex. *)
Lemma species_tests_Some v g x t g' :
  species_tests v g = Ok (Some (x, t), g') ->
  (1 <= length (F v))%nat /\ (1 <= length (M v))%nat.
Proof.
  unfold species_tests. intros H.
  destruct (length (F v)) as [|[|nF]]; destruct (length (M v)) as [|[|nM]];
    cbn [Nat.eqb Nat.ltb Nat.leb andb] in H; try (split; lia);
    discriminate H.
Qed.

(** A row is stored by the step of its own species, from the index and
    the locals of [species_tests], and only if the index is not zero. *)
Lemma species_step_lookup k v calc g calc' g' k0 r :
  species_step (k, v) (calc, g) = Ok (calc', g') ->
  calc' !! k0 = Some r ->
  calc !! k0 = Some r \/
  (k0 = k /\ ~ ssdi r == 0 /\
   males r = length (M v) /\ females r = length (F v) /\
   species_tests v g = Ok (Some (ssdi r, fields r), g')).
Proof.
  unfold species_step.
  destruct (species_tests v g) as [[[[x t]|] g1]|e] eqn:E; cbn [mbind res_bind];
    try (intros X; discriminate X).
  - unfold truthy. destruct (Qeq_bool x 0) eqn:Ex; cbn [negb].
    + intros [= <- <-]. auto.
    + intros [= <- <-]. destruct (decide (k = k0)) as [->|Hne].
      * rewrite lookup_insert_eq. intros [= <-]. right. cbn.
        repeat split; auto. intros Hz. apply Qeq_bool_iff in Hz. congruence.
      * rewrite lookup_insert_ne by assumption. auto.
  - intros [= <- <-]. auto.
Qed.

Lemma for_each_species_step_lookup l : forall calc g calc' g' k0 r,
  for_each l species_step (calc, g) = Ok (calc', g') ->
  calc' !! k0 = Some r ->
  calc !! k0 = Some r \/
  exists v g1 g2, In (k0, v) l /\ ~ ssdi r == 0 /\
    males r = length (M v) /\ females r = length (F v) /\
    species_tests v g1 = Ok (Some (ssdi r, fields r), g2).
Proof.
  induction l as [|[k v] l IH]; intros calc g calc' g' k0 r; cbn [for_each].
  - intros [= <- <-]. auto.
  - destruct (species_step (k, v) (calc, g)) as [[calc1 g1]|e] eqn:E;
      cbn [mbind res_bind]; [|intros X; discriminate X].
    intros H Hr. destruct (IH _ _ _ _ _ _ H Hr) as [H1|(v' & ga & gb & Hin & Hrest)].
    + destruct (species_step_lookup _ _ _ _ _ _ _ _ E H1)
        as [H0|(-> & Hnz & Hm & Hf & Ht)]; [auto|].
      right. exists v, g, g1. split; [left; reflexivity | auto].
    + right. exists v', ga, gb. split; [right; exact Hin | exact Hrest].
Qed.

Lemma sorted_items_lookup (species_dict : gmap string cohort) k v :
  In (k, v) (sorted_items species_dict) -> species_dict !! k = Some v.
Proof.
  unfold sorted_items. intros H. apply list_elem_of_In in H.
  rewrite merge_sort_Permutation in H. now apply elem_of_map_to_list in H.
Qed.

(** Every row of the result comes from a species with at least one entry
    of each sex and a non-zero index. *)
Lemma run_ssdi_calculations_rows species_dict g calc g' k r :
  run_ssdi_calculations species_dict g = Ok (calc, g') ->
  calc !! k = Some r ->
  exists v g1 g2, species_dict !! k = Some v /\
    (1 <= length (F v))%nat /\ (1 <= length (M v))%nat /\ ~ ssdi r == 0 /\
    males r = length (M v) /\ females r = length (F v) /\
    species_tests v g1 = Ok (Some (ssdi r, fields r), g2).
Proof.
  unfold run_ssdi_calculations. intros H Hr.
  destruct (for_each_species_step_lookup _ _ _ _ _ _ _ H Hr)
    as [H0|(v & g1 & g2 & Hin & Hnz & Hm & Hf & Ht)].
  - rewrite lookup_empty in H0. discriminate H0.
  - exists v, g1, g2. destruct (species_tests_Some _ _ _ _ _ Ht).
    split; [now apply sorted_items_lookup | auto 10].
Qed.

(** A species with no entry for one sex has no row. *)
Lemma run_ssdi_calculations_incomplete species_dict g calc g' k v :
  run_ssdi_calculations species_dict g = Ok (calc, g') ->
  species_dict !! k = Some v ->
  (length (F v) = 0 \/ length (M v) = 0)%nat ->
  calc !! k = None.
Proof.
  intros H Hk Hzero. destruct (calc !! k) as [r|] eqn:Hr; [|reflexivity].
  destruct (run_ssdi_calculations_rows _ _ _ _ _ _ H Hr)
    as (v' & _ & _ & Hk' & HF & HM & _).
  rewrite Hk in Hk'. injection Hk' as <-. lia.
Qed.

End ResultProperties.

(** C2.  A species with one male and one female of equal size is read
    into a cohort with one entry per sex, yet its index [0.0] fails the
    test [if ssdi:] and the result mapping stays empty. *)
Theorem run_ssdi_calculations_equal_sizes_dropped
    (ttest_1samp : list Q -> Q -> npfloat) (g : random_state) :
  (exists log, input_to_dict decimal_float equal_sizes_file csv
               = Ok (equal_sizes_dict, log)) /\
  run_ssdi_calculations ttest_1samp equal_sizes_dict g = Ok (∅, g).
Proof.
  split.
  - eexists. vm_compute. reflexivity.
  - vm_compute. reflexivity.
Qed.

Section UnrecognizedSex.

Variable float_of_string : string -> option Q.

Lemma for_each_lookup_no_record fmt lines d log d' log' s :
  for_each lines (process_line float_of_string fmt) (d, log) = Ok (d', log') ->
  (forall l, In l lines -> ~ record_of fmt s l) ->
  d' !! s = d !! s.
Proof.
  intros H Hno.
  destruct (for_each_lookup_unrecognized float_of_string fmt lines d log d' log' s H)
    as [[E _]|[_ (l & Hin & Hl)]].
  - intros l Hin Hl. destruct (Hno l Hin Hl).
  - exact E.
  - destruct (Hno l Hin Hl).
Qed.

(** C10.  When the first record of a species carries an unrecognised sex
    token (and a parseable size), the aggregator creates the species with
    two empty lists; the species remains in the mapping and is counted in
    the total that is logged; and if none of its later records carries a
    recognised token either, its lists stay empty and it has no row in
    the results. *)
Theorem input_to_dict_unrecognized_first_record (fmt : fileformat)
    (header : string) (before : list string) (line : string)
    (after : list string) (s : string)
    (d : gmap string cohort) (log : list event) :
  input_to_dict float_of_string (header :: before ++ line :: after) fmt
    = Ok (d, log) ->
  (forall l, In l before -> ~ record_of fmt s l) ->
  record_of fmt s line -> unrecognized_sex fmt line ->
  (exists d1 log1,
      for_each (before ++ [line]) (process_line float_of_string fmt) (∅, [])
        = Ok (d1, log1) /\
      d1 !! s = Some empty_cohort) /\
  is_Some (d !! s) /\ (0 < size d)%nat /\
  (exists log0, log = log0 ++ [info_found_data (size d)]) /\
  ((forall l, In l after -> record_of fmt s l -> unrecognized_sex fmt l) ->
   d !! s = Some empty_cohort /\
   forall ttest_1samp g calc g',
     run_ssdi_calculations ttest_1samp d g = Ok (calc, g') -> calc !! s = None).
Proof.
  unfold input_to_dict. intros H Hno Hrec Hun.
  change (line :: after) with ([line] ++ after) in H.
  rewrite app_assoc, !for_each_app in H.
  rewrite for_each_app.
  destruct (for_each before (process_line float_of_string fmt) (∅, []))
    as [[d0 log0]|e] eqn:E0; cbn [mbind res_bind for_each] in *;
    [|discriminate H].
  destruct (process_line float_of_string fmt line (d0, log0))
    as [[d1 log1]|e] eqn:E1; cbn [mbind res_bind] in *; [|discriminate H].
  destruct (for_each after (process_line float_of_string fmt) (d1, log1))
    as [[d2 log2]|e] eqn:E2; cbn [mbind res_bind] in *; [|discriminate H].
  injection H as <- <-.
  assert (d0 !! s = None) as H0.
  { rewrite (for_each_lookup_no_record _ _ _ _ _ _ _ E0 Hno). apply lookup_empty. }
  assert (d1 !! s = Some empty_cohort) as H1.
  { destruct (process_line_lookup _ _ _ _ _ _ _ s E1) as (_ & Hr & _).
    rewrite (Hr Hrec Hun), H0. reflexivity. }
  assert (is_Some (d2 !! s)) as H2.
  { eapply for_each_lookup_is_Some; [exact E2 | rewrite H1; eauto]. }
  split; [eauto|]. split; [exact H2|]. split.
  { destruct (size d2) eqn:Es; [|lia].
    apply map_size_empty_iff in Es. subst d2.
    rewrite lookup_empty in H2. destruct H2 as [? H2]. discriminate H2. }
  split; [eauto|].
  intros Hafter.
  assert (d2 !! s = Some empty_cohort) as Hd.
  { destruct (for_each_lookup_unrecognized _ _ _ _ _ _ _ s E2 Hafter)
      as [[E _]|[E _]]; rewrite E, H1; reflexivity. }
  split; [exact Hd|].
  intros ttest_1samp g calc g' Hrun.
  eapply run_ssdi_calculations_incomplete; [exact Hrun | exact Hd |].
  left. reflexivity.
Qed.

End UnrecognizedSex.

Lemma input_to_dict_unrecognized_first_record_witness :
  (exists d1 log1,
      for_each (["Fox,M,10.0"%string] ++ ["Cat,x,1.0"%string])
        (process_line decimal_float csv) (∅, []) = Ok (d1, log1) /\
      d1 !! "Cat"%string = Some empty_cohort) /\
  is_Some (unknown_sex_dict !! "Cat"%string) /\
  (0 < size unknown_sex_dict)%nat /\
  (exists log0, unknown_sex_log = log0 ++ [info_found_data (size unknown_sex_dict)]) /\
  ((forall l, In l ["Fox,F,12.0"; "Cat,?,2.0"]%string ->
      record_of csv "Cat" l -> unrecognized_sex csv l) ->
   unknown_sex_dict !! "Cat"%string = Some empty_cohort /\
   forall ttest_1samp g calc g',
     run_ssdi_calculations ttest_1samp unknown_sex_dict g = Ok (calc, g') ->
     calc !! "Cat"%string = None).
Proof.
  apply (input_to_dict_unrecognized_first_record decimal_float csv
           "Species,Sex,Size" ["Fox,M,10.0"]%string "Cat,x,1.0"
           ["Fox,F,12.0"; "Cat,?,2.0"]%string "Cat"
           unknown_sex_dict unknown_sex_log).
  - vm_compute. reflexivity.
  - intros l [<-|[]] (_ & _ & H). vm_compute in H. discriminate H.
  - repeat split. vm_compute. lia.
  - intros col1 H. vm_compute in H. injection H as <-.
    split; vm_compute; discriminate.
Defined.

(** * Further properties of the engine *)

(** *** Rounding is odd *)

Lemma Qfloor_unique (k : Z) (y : Q) :
  inject_Z k <= y -> y < inject_Z (k + 1) -> Qfloor y = k.
Proof.
  intros Hlo Hhi.
  pose proof (Qfloor_le y) as H1. pose proof (Qlt_floor y) as H2.
  assert (inject_Z (Qfloor y) < inject_Z (k + 1)) as A by lra.
  assert (inject_Z k < inject_Z (Qfloor y + 1)) as B by lra.
  rewrite <- Zlt_Qlt in A, B. lia.
Qed.

Lemma rint_opp x : rint (- x) = (- rint x)%Z.
Proof.
  pose proof (Qfloor_le x) as Hlo. pose proof (Qlt_floor x) as Hhi.
  rewrite inject_Z_plus in Hhi. change (inject_Z 1) with 1 in Hhi.
  destruct (Qeq_dec x (inject_Z (Qfloor x))) as [Hint|Hfrac].
  - (* x is an integer *)
    assert (Qfloor (- x) = (- Qfloor x)%Z) as Ef.
    { apply Qfloor_unique; rewrite ?inject_Z_plus, inject_Z_opp;
        change (inject_Z 1) with 1; lra. }
    unfold rint. rewrite Ef, inject_Z_opp.
    destruct (Qcompare_spec (- x - - inject_Z (Qfloor x)) (1 # 2)) as [C|C|C];
      destruct (Qcompare_spec (x - inject_Z (Qfloor x)) (1 # 2)) as [D|D|D];
      try (exfalso; lra); reflexivity.
  - assert (Qfloor (- x) = (- Qfloor x - 1)%Z) as Ef.
    { apply Qfloor_unique; unfold Z.sub;
        rewrite ?inject_Z_plus, ?inject_Z_opp;
        change (inject_Z 1) with 1; change (inject_Z (-1)) with (-1).
      - lra.
      - destruct (Qle_lt_or_eq _ _ Hlo) as [Hlt|Heq];
          [lra | exfalso; apply Hfrac; now symmetry]. }
    unfold rint. rewrite Ef.
    remember (- Qfloor x - 1)%Z as z' eqn:Hz.
    assert (inject_Z z' == - inject_Z (Qfloor x) - 1) as Ez.
    { rewrite Hz. unfold Z.sub. rewrite inject_Z_plus, inject_Z_opp.
      change (inject_Z (- (1))) with (- (1)). ring. }
    assert (Z.even z' = negb (Z.even (Qfloor x))) as ->.
    { rewrite Hz, Z.even_sub, Z.even_opp.
      destruct (Z.even (Qfloor x)); reflexivity. }
    destruct (Qcompare_spec (- x - inject_Z z') (1 # 2)) as [C|C|C];
      destruct (Qcompare_spec (x - inject_Z (Qfloor x)) (1 # 2)) as [D|D|D];
      try (exfalso; lra); destruct (Z.even (Qfloor x)); cbn [negb]; lia.
Qed.

Lemma py_round_opp x nd : py_round (- x) nd = - py_round x nd.
Proof.
  unfold py_round.
  rewrite (rint_comp (- x * inject_Z (Z.pos (pow10 nd)))
                     (- (x * inject_Z (Z.pos (pow10 nd))))) by ring.
  rewrite rint_opp. apply (Qred_opp (_ # _)).
Qed.

(** *** More on the dimorphism index *)

(** X1.  Exchanging the two sizes negates the index: whenever
    [ssdi_single f m] returns [r], [ssdi_single m f] returns [-r]. *)
Theorem ssdi_single_swap (f m r : Q) :
  ssdi_single f m = Ok r -> ssdi_single m f = Ok (- r).
Proof.
  unfold ssdi_single, truediv.
  destruct (Qlt_bool f m) eqn:E1; destruct (Qlt_bool m f) eqn:E2.
  - apply Qlt_bool_iff in E1, E2. exfalso. lra.
  - destruct (Qeq_bool f 0); cbn [mbind res_bind]; [discriminate|].
    intros [= <-]. apply (f_equal Ok).
    rewrite <- py_round_opp. apply py_round_comp. ring.
  - destruct (Qeq_bool m 0); cbn [mbind res_bind]; [discriminate|].
    intros [= <-]. apply (f_equal Ok).
    rewrite <- py_round_opp. apply py_round_comp. ring.
  - apply Qlt_bool_false in E1, E2.
    assert (f == m) as E by now apply Qle_antisym.
    rewrite (proj2 (Qeq_bool_iff f m) E).
    rewrite (proj2 (Qeq_bool_iff m f)) by now symmetry.
    intros [= <-]. reflexivity.
Qed.

Lemma ssdi_single_swap_witness : ssdi_single 8 10 = Ok (- (1 # 4)).
Proof. apply (ssdi_single_swap 10 8 (1 # 4)). reflexivity. Defined.

Lemma Qdiv_le_cross a b c d :
  0 < b -> 0 < d -> a * d <= c * b -> a / b <= c / d.
Proof.
  intros Hb Hd H.
  assert (a / b == (a * d) / (b * d)) as -> by (field; split; lra).
  assert (c / d == (c * b) / (b * d)) as -> by (field; split; lra).
  apply Qmult_le_compat_r; [exact H|].
  apply Qinv_le_0_compat. apply Qlt_le_weak.
  rewrite <- (Qmult_0_l d). apply Qmult_lt_compat_r; assumption.
Qed.

(** The exact ratio that [DimorphismIndex] rounds. *)
Lemma DimorphismIndex_rounds f m :
  0 < f -> 0 < m ->
  DimorphismIndex f m
  = py_round (if Qlt_bool f m then - (m / f - 1) else f / m - 1) 3.
Proof.
  intros Hf Hm. unfold DimorphismIndex.
  destruct (Qlt_bool f m) eqn:E1; [reflexivity|].
  destruct (Qlt_bool m f) eqn:E2; [reflexivity|].
  apply Qlt_bool_false in E1, E2.
  rewrite (py_round_comp (f / m - 1) 0), py_round_0; [reflexivity|].
  assert (f == m) as -> by now apply Qle_antisym. field. lra.
Qed.

(** X3.  On positive sizes the index grows with the female size and
    shrinks with the male size. *)
Theorem ssdi_single_monotone (f1 f2 m1 m2 : Q) :
  0 < f1 -> f1 <= f2 -> 0 < m2 -> m2 <= m1 ->
  exists r1 r2,
    ssdi_single f1 m1 = Ok r1 /\ ssdi_single f2 m2 = Ok r2 /\ r1 <= r2.
Proof.
  intros Hf1 Hf Hm2 Hm.
  assert (0 < f2) as Hf2 by lra. assert (0 < m1) as Hm1 by lra.
  exists (DimorphismIndex f1 m1), (DimorphismIndex f2 m2).
  rewrite !ssdi_single_DimorphismIndex by assumption.
  split; [reflexivity|]. split; [reflexivity|].
  rewrite !DimorphismIndex_rounds by assumption. apply py_round_mono.
  assert (m2 / f2 <= m1 / f1) as Hr by (apply Qdiv_le_cross; nra).
  assert (f1 / m1 <= f2 / m2) as Hr' by (apply Qdiv_le_cross; nra).
  destruct (Qlt_bool f1 m1) eqn:E1; destruct (Qlt_bool f2 m2) eqn:E2.
  - lra.
  - apply Qlt_bool_iff in E1. apply Qlt_bool_false in E2.
    assert (1 <= m1 / f1) by (apply Qle_shift_div_l; lra).
    assert (1 <= f2 / m2) by (apply Qle_shift_div_l; lra). lra.
  - apply Qlt_bool_false in E1. apply Qlt_bool_iff in E2. exfalso. lra.
  - lra.
Qed.

Lemma ssdi_single_monotone_witness :
  exists r1 r2,
    ssdi_single 10 9 = Ok r1 /\ ssdi_single 12 8 = Ok r2 /\ r1 <= r2.
Proof. apply (ssdi_single_monotone 10 12 9 8); lra. Defined.

(** *** Alphabetical order of the species *)

Lemma ascii_compare_lt_trans a b c :
  Ascii.compare a b = Lt -> Ascii.compare b c = Lt -> Ascii.compare a c = Lt.
Proof.
  unfold Ascii.compare. rewrite !N.compare_lt_iff. lia.
Qed.

Lemma string_compare_lt_trans s1 : forall s2 s3,
  String.compare s1 s2 = Lt -> String.compare s2 s3 = Lt ->
  String.compare s1 s3 = Lt.
Proof.
  induction s1 as [|a s1 IH]; intros [|b s2] [|c s3]; simpl; try congruence.
  destruct (Ascii.compare a b) eqn:Eab; try discriminate;
    destruct (Ascii.compare b c) eqn:Ebc; try discriminate; intros H1 H2.
  - apply Ascii.compare_eq_iff in Eab, Ebc. subst.
    assert (Ascii.compare c c = Eq) as ->
      by (unfold Ascii.compare; apply N.compare_refl).
    eapply IH; eauto.
  - apply Ascii.compare_eq_iff in Eab. subst. now rewrite Ebc.
  - apply Ascii.compare_eq_iff in Ebc. subst. now rewrite Eab.
  - now rewrite (ascii_compare_lt_trans a b c).
Qed.

Lemma string_leb_trans s1 s2 s3 :
  String.leb s1 s2 = true -> String.leb s2 s3 = true -> String.leb s1 s3 = true.
Proof.
  unfold String.leb. intros H1 H2.
  destruct (String.compare s1 s2) eqn:E12; try discriminate.
  - apply String.compare_eq_iff in E12. subst. exact H2.
  - destruct (String.compare s2 s3) eqn:E23; try discriminate.
    + apply String.compare_eq_iff in E23. subst. now rewrite E12.
    + now rewrite (string_compare_lt_trans s1 s2 s3).
Qed.

#[local] Instance key_le_total : Total key_le.
Proof.
  intros x y. unfold key_le. rewrite !Is_true_true. apply String.leb_total.
Qed.

#[local] Instance key_le_trans : Transitive key_le.
Proof.
  intros x y z. unfold key_le. rewrite !Is_true_true. apply string_leb_trans.
Qed.

Lemma sorted_items_Permutation (species_dict : gmap string cohort) :
  sorted_items species_dict ≡ₚ map_to_list species_dict.
Proof. apply merge_sort_Permutation. Qed.

Lemma sorted_items_NoDup_keys (species_dict : gmap string cohort) :
  NoDup (sorted_items species_dict).*1.
Proof.
  rewrite sorted_items_Permutation. apply NoDup_fst_map_to_list.
Qed.

Lemma StronglySorted_strict (l : list (string * cohort)) :
  StronglySorted key_le l -> NoDup l.*1 ->
  StronglySorted (fun x y => String.ltb x.1 y.1 = true) l.
Proof.
  induction 1 as [|x l Hl IH Hx]; intros Hnd; [constructor|].
  cbn in Hnd. apply NoDup_cons in Hnd as [Hnotin Hnd].
  constructor; [now apply IH|].
  rewrite List.Forall_forall in Hx |- *. intros y Hy.
  specialize (Hx y Hy). unfold key_le in Hx. apply Is_true_true in Hx.
  unfold String.leb in Hx. unfold String.ltb.
  destruct (String.compare x.1 y.1) eqn:E; [|reflexivity|discriminate].
  apply String.compare_eq_iff in E. exfalso. apply Hnotin.
  rewrite E. apply list_elem_of_fmap. exists y. split; [reflexivity|].
  now apply list_elem_of_In.
Qed.

(** X4.  [sorted(species_dict.items())]: the loops over the species visit
    every entry of the dictionary exactly once, in strictly increasing
    order of the species names. *)
Theorem sorted_items_sorted (species_dict : gmap string cohort) :
  StronglySorted (fun x y => String.ltb x.1 y.1 = true)
    (sorted_items species_dict) /\
  NoDup (sorted_items species_dict) /\
  (forall k v, In (k, v) (sorted_items species_dict) <-> species_dict !! k = Some v) /\
  length (sorted_items species_dict) = size species_dict.
Proof.
  split; [|split; [|split]].
  - apply StronglySorted_strict; [|apply sorted_items_NoDup_keys].
    apply StronglySorted_merge_sort; apply _.
  - rewrite sorted_items_Permutation. apply NoDup_map_to_list.
  - intros k v. rewrite <- list_elem_of_In, sorted_items_Permutation.
    apply elem_of_map_to_list.
  - rewrite sorted_items_Permutation. apply length_map_to_list.
Qed.

(** *** The sample-size summary *)

Lemma quick_counts_fold l : forall c1 c2 c3,
  (c3 <= c2 <= c1)%nat ->
  let '(o, t, h) := fold_left quick_counts_step l (c1, c2, c3) in
  (h <= t <= o /\ o <= c1 + length l)%nat.
Proof.
  induction l as [|[k v] l IH]; intros c1 c2 c3 Hc; simpl.
  - lia.
  - set (o := if Nat.ltb 1 (length (M v)) && Nat.ltb 1 (length (F v))
              then S c1 else c1).
    set (t := if Nat.ltb 2 (length (M v)) && Nat.ltb 2 (length (F v))
              then S c2 else c2).
    set (h := if Nat.ltb 3 (length (M v)) && Nat.ltb 3 (length (F v))
              then S c3 else c3).
    assert (h <= t <= o /\ o <= S c1)%nat as [Hchain Ho].
    { unfold o, t, h.
      destruct (Nat.ltb_spec 1 (length (M v))), (Nat.ltb_spec 1 (length (F v))),
        (Nat.ltb_spec 2 (length (M v))), (Nat.ltb_spec 2 (length (F v))),
        (Nat.ltb_spec 3 (length (M v))), (Nat.ltb_spec 3 (length (F v)));
        cbn [andb]; lia. }
    specialize (IH o t h Hchain).
    destruct (fold_left quick_counts_step l (o, t, h)) as [[o' t'] h']. lia.
Qed.

(** X5.  The three counts logged by [quick_counts] are nested: species
    with more than 3 of each sex are among those with more than 2, these
    among those with more than 1, and none exceeds the number of
    species. *)
Theorem quick_counts_nested (species_dict : gmap string cohort) :
  let '(onecount, twocount, threecount) := quick_counts species_dict in
  (threecount <= twocount <= onecount /\ onecount <= size species_dict)%nat.
Proof.
  unfold quick_counts.
  pose proof (quick_counts_fold (sorted_items species_dict) 0 0 0 ltac:(lia)) as H.
  destruct (fold_left quick_counts_step (sorted_items species_dict) (0, 0, 0)%nat)
    as [[o t] h].
  rewrite sorted_items_Permutation, length_map_to_list in H. lia.
Qed.

(** *** What the aggregation stores and logs *)

Section ReadingProperties.

Variable float_of_string : string -> option Q.

Local Abbreviation process_line := (process_line float_of_string).
Local Abbreviation input_to_dict := (input_to_dict float_of_string).
Local Abbreviation parsed_record := (parsed_record float_of_string).
Local Abbreviation sizes_of := (sizes_of float_of_string).
Local Abbreviation line_events := (line_events float_of_string).

(** A line raises only if its size field is unparseable. *)
Lemma process_line_Raise fmt line st e :
  process_line fmt line st = Raise e ->
  unparseable_size float_of_string fmt line.
Proof.
  destruct st as [d log].
  unfold process_line, float, getitem, unparseable_size.
  fold (columns fmt line).
  destruct (nonempty (strip line)); [|discriminate].
  destruct (Nat.ltb_spec (length (columns fmt line)) 3) as [Hlt|Hge];
    [discriminate|].
  destruct (columns fmt line) as [|c0 [|c1 [|c2 cols]]]; simpl in Hge; try lia.
  cbn. destruct (float_of_string c2) eqn:Ef; cbn.
  - destruct (d !! c0), (String.eqb (upper c1) "M"), (String.eqb (upper c1) "F");
      discriminate.
  - intros _. split; [reflexivity|]. exists c2. auto.
Qed.


Lemma sizes_of_single fmt s sex line :
  sizes_of fmt s sex [line]
  = match parsed_record fmt line with
    | Some (sp, sx, size) =>
        if String.eqb sp s && String.eqb sx sex then [size] else []
    | None => []
    end.
Proof. unfold sizes_of. cbn [flat_map]. apply app_nil_r. Qed.

Lemma parsed_record_blank fmt line :
  nonempty (strip line) = false ->
  parsed_record fmt line = None /\ line_events fmt line = [].
Proof. intros H. unfold parsed_record, line_events. now rewrite H. Qed.

Lemma parsed_record_short fmt line :
  nonempty (strip line) = true -> (length (columns fmt line) < 3)%nat ->
  parsed_record fmt line = None /\ line_events fmt line = [debug_bad_line line].
Proof.
  intros H Hlt. unfold parsed_record, line_events. rewrite H.
  rewrite (proj2 (Nat.ltb_lt _ _) Hlt).
  destruct (columns fmt line) as [|c0 [|c1 [|c2 cols]]]; simpl in Hlt;
    try lia; auto.
Qed.

Lemma parsed_record_full fmt line c0 c1 c2 cols size :
  nonempty (strip line) = true -> columns fmt line = c0 :: c1 :: c2 :: cols ->
  float_of_string c2 = Some size ->
  parsed_record fmt line = Some (c0, upper c1, size) /\
  line_events fmt line =
    if String.eqb (upper c1) "M" || String.eqb (upper c1) "F" then []
    else [debug_skipping_entry c0 (upper c1) size].
Proof.
  intros H Hc Hf.
  assert (parsed_record fmt line = Some (c0, upper c1, size)) as E
    by (unfold parsed_record; now rewrite H, Hc, Hf).
  split; [exact E|]. unfold line_events. rewrite H, Hc, E. reflexivity.
Qed.

(** What one line does to the state. *)
Lemma process_line_effect fmt line d log d' log' s :
  process_line fmt line (d, log) = Ok (d', log') ->
  M (cohort_of d' s) = M (cohort_of d s) ++ sizes_of fmt s "M" [line] /\
  F (cohort_of d' s) = F (cohort_of d s) ++ sizes_of fmt s "F" [line] /\
  (is_Some (d' !! s) <-> is_Some (d !! s) \/ record_of fmt s line) /\
  log' = log ++ line_events fmt line.
Proof.
  rewrite !sizes_of_single.
  unfold process_line, float, getitem, record_of.
  fold (columns fmt line).
  destruct (nonempty (strip line)) eqn:Hne.
  2:{ intros [= <- <-].
      destruct (parsed_record_blank fmt line Hne) as [-> ->].
      rewrite !app_nil_r. repeat split; auto.
      intros [H|(H & _)]; [exact H | discriminate H]. }
  destruct (Nat.ltb_spec (length (columns fmt line)) 3) as [Hlt|Hge].
  { intros [= <- <-].
    destruct (parsed_record_short fmt line Hne Hlt) as [-> ->].
    rewrite !app_nil_r. repeat split; auto.
    intros [H|(_ & H & _)]; [exact H | lia]. }
  destruct (columns fmt line) as [|c0 [|c1 [|c2 cols]]] eqn:Hc;
    simpl in Hge; try lia.
  cbn. destruct (float_of_string c2) as [size|] eqn:Hf; cbn; [|discriminate].
  destruct (parsed_record_full fmt line c0 c1 c2 cols size Hne Hc Hf) as [-> ->].
  intros H. unfold cohort_of.
  destruct (String.eqb_spec c0 s) as [->|Hne0]; cbn [andb].
  - destruct (d !! s) as [c|] eqn:Hd;
      destruct (String.eqb (upper c1) "M") eqn:EM;
      destruct (String.eqb (upper c1) "F") eqn:EF;
      injection H as <- <-;
      rewrite ?lookup_alter_eq, ?lookup_insert_eq, ?Hd; cbn;
      rewrite ?app_nil_r;
      try (apply String.eqb_eq in EM; apply String.eqb_eq in EF; congruence).
    all: repeat split; eauto.
    all: try (intros _; repeat split; simpl; eauto; lia).
    all: try (intros _; right; repeat split; simpl; lia).
  - assert (d' !! s = d !! s /\ log' = log ++
              (if String.eqb (upper c1) "M" || String.eqb (upper c1) "F"
               then [] else [debug_skipping_entry c0 (upper c1) size])) as [E ->].
    { destruct (d !! c0) eqn:Hd;
        destruct (String.eqb (upper c1) "M"), (String.eqb (upper c1) "F");
        injection H as <- <-;
        rewrite ?lookup_alter_ne, ?lookup_insert_ne by assumption;
        rewrite ?app_nil_r; split; reflexivity. }
    rewrite E, !app_nil_r. repeat split; auto.
    intros [Hs|(_ & _ & [= ?])]; [exact Hs | contradiction].
Qed.

Lemma sizes_of_cons fmt s sex line lines :
  sizes_of fmt s sex (line :: lines)
  = sizes_of fmt s sex [line] ++ sizes_of fmt s sex lines.
Proof. unfold sizes_of. cbn [flat_map]. now rewrite app_nil_r. Qed.

(** What a run of lines does to the state. *)
Lemma for_each_effect fmt lines : forall d log d' log' s,
  for_each lines (process_line fmt) (d, log) = Ok (d', log') ->
  M (cohort_of d' s) = M (cohort_of d s) ++ sizes_of fmt s "M" lines /\
  F (cohort_of d' s) = F (cohort_of d s) ++ sizes_of fmt s "F" lines /\
  (is_Some (d' !! s) <->
     is_Some (d !! s) \/ exists l, In l lines /\ record_of fmt s l) /\
  log' = log ++ flat_map (line_events fmt) lines.
Proof.
  induction lines as [|l lines IH]; intros d log d' log' s; cbn [for_each].
  - intros [= <- <-]. cbn. rewrite !app_nil_r. repeat split; auto.
    intros [H|(l & [] & _)]. exact H.
  - destruct (process_line fmt l (d, log)) as [[d1 log1]|e] eqn:E;
      cbn [mbind res_bind]; [|intros X; discriminate X].
    intros H.
    destruct (process_line_effect _ _ _ _ _ _ s E) as (HM1 & HF1 & HS1 & ->).
    destruct (IH _ _ _ _ s H) as (HM2 & HF2 & HS2 & ->).
    rewrite !(sizes_of_cons fmt s _ l lines), !app_assoc, <- HM1, <- HF1.
    cbn [flat_map]. rewrite app_assoc.
    repeat split; auto.
    + intros Hs. apply HS2 in Hs as [Hs|(l' & Hin & Hr)].
      * apply HS1 in Hs as [Hs|Hr]; [auto|]. right. exists l. split; [left|]; auto.
      * right. exists l'. split; [right|]; auto.
    + intros [Hs|(l' & [<-|Hin] & Hr)]; apply HS2.
      * left. apply HS1. auto.
      * left. apply HS1. auto.
      * right. eauto.
Qed.

(** X6.  When the aggregation succeeds, a species is a key of the mapping
    exactly when the file holds a record of it, and its two lists are the
    sizes of its male and of its female records, in the order of the
    file. *)
Theorem input_to_dict_sizes (fmt : fileformat) (header : string)
    (lines : list string) (d : gmap string cohort) (log : list event)
    (s : string) :
  input_to_dict (header :: lines) fmt = Ok (d, log) ->
  (is_Some (d !! s) <-> exists l, In l lines /\ record_of fmt s l) /\
  (forall c, d !! s = Some c ->
     M c = sizes_of fmt s "M" lines /\ F c = sizes_of fmt s "F" lines).
Proof.
  unfold input_to_dict.
  destruct (for_each lines (process_line fmt) (∅, [])) as [[d1 log1]|e] eqn:E;
    cbn [mbind res_bind]; [|intros X; discriminate X].
  intros [= <- <-].
  destruct (for_each_effect _ _ _ _ _ _ s E) as (HM & HF & HS & _).
  unfold cohort_of in HM, HF. rewrite lookup_empty in HM, HF, HS. cbn in HM, HF.
  split.
  - rewrite HS. split; [intros [[? H]|H]; [discriminate H | exact H] | auto].
  - intros c Hc. rewrite Hc in HM, HF. auto.
Qed.

Lemma for_each_Ok fmt lines : forall st,
  (forall l, In l lines -> ~ unparseable_size float_of_string fmt l) ->
  exists st', for_each lines (process_line fmt) st = Ok st'.
Proof.
  induction lines as [|l lines IH]; intros st Hok; cbn [for_each]; [eauto|].
  destruct (process_line fmt l st) as [st1|e] eqn:E; cbn [mbind res_bind].
  - apply IH. intros l' Hin. apply Hok. now right.
  - apply process_line_Raise in E. destruct (Hok l); [now left | exact E].
Qed.

(** X8.  The aggregation of a file with a header line succeeds exactly
    when no record has an unparseable size; short lines, blank lines and
    unrecognised sex tokens never make it fail. *)
Theorem input_to_dict_succeeds_iff (fmt : fileformat) (header : string)
    (lines : list string) :
  (exists d log, input_to_dict (header :: lines) fmt = Ok (d, log)) <->
  (forall l, In l lines -> ~ unparseable_size float_of_string fmt l).
Proof.
  unfold input_to_dict. split.
  - intros (d & log & H) l Hin Hbad.
    apply in_split in Hin as (before & after & ->).
    rewrite for_each_app in H.
    destruct (for_each before (process_line fmt) (∅, [])) as [st|e] eqn:E;
      cbn [mbind res_bind for_each] in H; [|discriminate H].
    rewrite (process_line_unparseable float_of_string fmt l st Hbad) in H.
    discriminate H.
  - intros Hok. destruct (for_each_Ok fmt lines (∅, []) Hok) as [[d log] E].
    rewrite E. cbn [mbind res_bind]. eauto.
Qed.

End ReadingProperties.

Lemma input_to_dict_sizes_witness :
  (is_Some (unknown_sex_dict !! "Fox"%string) <->
     exists l, In l (tail unknown_sex_file) /\ record_of csv "Fox" l) /\
  (forall c, unknown_sex_dict !! "Fox"%string = Some c ->
     M c = sizes_of decimal_float csv "Fox" "M" (tail unknown_sex_file) /\
     F c = sizes_of decimal_float csv "Fox" "F" (tail unknown_sex_file)).
Proof.
  apply (input_to_dict_sizes decimal_float csv "Species,Sex,Size"
           (tail unknown_sex_file) unknown_sex_dict unknown_sex_log "Fox").
  vm_compute. reflexivity.
Defined.

(** *** Degenerate samples *)

Lemma pairwise_vals_no_males females : pairwise_vals females [] = Ok [].
Proof.
  unfold pairwise_vals.
  rewrite (for_each_ext females _ (fun f vals => Ok (vals ++ []))).
  - rewrite for_each_append. simpl.
    induction females as [|f fs IH]; [reflexivity | exact IH].
  - intros f vals _. simpl. now rewrite app_nil_r.
Qed.

(** The loops compute the cross product whenever the index of every pair
    is defined. *)
Lemma pairwise_vals_defined females males :
  (forall f m, In f females -> In m males ->
     ssdi_single f m = Ok (DimorphismIndex f m)) ->
  pairwise_vals females males = Ok (cross_product females males).
Proof.
  intros H. unfold pairwise_vals, cross_product.
  rewrite (for_each_ext females _
             (fun f vals => Ok (vals ++ map (fun m => DimorphismIndex f m) males))).
  - now rewrite for_each_append.
  - intros f vals Hf.
    rewrite (for_each_ext males _ (fun m vals => Ok (vals ++ [DimorphismIndex f m]))).
    + rewrite for_each_append.
      replace (flat_map (fun m => [DimorphismIndex f m]) males)
        with (map (fun m => DimorphismIndex f m) males); [reflexivity|].
      clear. induction males as [|m ms IH]; simpl; congruence.
    + intros m acc Hm. now rewrite (H f m Hf Hm).
Qed.

Lemma DimorphismIndex_equal f m : f == m -> DimorphismIndex f m = 0.
Proof.
  intros E. unfold DimorphismIndex.
  rewrite (proj2 (Qlt_bool_false f m)) by lra.
  rewrite (proj2 (Qlt_bool_false m f)) by lra. reflexivity.
Qed.

Lemma cross_product_all_equal c females males :
  all_equal c females -> all_equal c males ->
  Forall (fun v => v = 0) (cross_product females males).
Proof.
  intros HF HM. unfold cross_product. apply List.Forall_forall. intros v Hv.
  apply in_flat_map in Hv as (f & Hf & Hv).
  apply in_map_iff in Hv as (m & <- & Hm).
  apply DimorphismIndex_equal.
  rewrite (proj1 (List.Forall_forall _ _) HF f Hf).
  now rewrite (proj1 (List.Forall_forall _ _) HM m Hm).
Qed.

Lemma zeros_repeat (l : list Q) :
  Forall (fun v => v = 0) l -> l = repeat 0 (length l).
Proof. induction 1 as [|v l -> _ IH]; simpl; congruence. Qed.

Lemma Qsum_zeros l : Forall (fun v => v = 0) l -> forall a, fold_left Qplus l a == a.
Proof.
  induction 1 as [|v l -> _ IH]; intros a; simpl; [reflexivity|].
  rewrite IH. ring.
Qed.

Lemma np_mean_zeros l :
  Forall (fun v => v = 0) l -> l <> [] -> np_round (np_mean l) 3 = fin 0.
Proof.
  intros H Hne. destruct l as [|v l]; [congruence|].
  unfold np_mean, np_round, Qsum. apply (f_equal fin).
  transitivity (py_round 0 3); [|apply py_round_0].
  apply py_round_comp.
  rewrite (Qsum_zeros _ H). unfold Qdiv. apply Qmult_0_l.
Qed.

Lemma average_pairwise_all_equal c females males :
  females <> [] -> males <> [] ->
  all_equal c females -> all_equal c males ->
  average_pairwise females males = fin 0.
Proof.
  intros HnF HnM HF HM. unfold average_pairwise.
  apply np_mean_zeros; [now apply (cross_product_all_equal c)|].
  now apply cross_product_nonempty.
Qed.

Section DegenerateSamples.

Variable ttest_1samp : list Q -> Q -> npfloat.

(** X9.  With no female or no male size, no pair exists: no index is
    computed, nothing is raised, and the average returned is [nan]. *)
Theorem ssdi_pairwise_empty (females males : list Q) (ttest : bool) :
  females = [] \/ males = [] ->
  pairwise_vals females males = Ok [] /\
  ssdi_pairwise ttest_1samp females males ttest
    = Ok (nan, if ttest then formatted_pvalue (ttest_1samp [] 0) else Str "NA").
Proof.
  intros H.
  assert (pairwise_vals females males = Ok []) as E.
  { destruct H as [-> | ->]; [reflexivity | apply pairwise_vals_no_males]. }
  split; [exact E|]. unfold ssdi_pairwise. rewrite E.
  destruct ttest; reflexivity.
Qed.

(** X10.  When every size of both sexes is the same number, zero
    included, every pairwise index is [0.0] and so is the average; no
    division takes place. *)
Theorem ssdi_pairwise_all_equal (c : Q) (females males : list Q) (ttest : bool) :
  females <> [] -> males <> [] ->
  all_equal c females -> all_equal c males ->
  pairwise_vals females males
    = Ok (repeat 0 (length females * length males)) /\
  exists p, ssdi_pairwise ttest_1samp females males ttest = Ok (fin 0, p).
Proof.
  intros HnF HnM HF HM.
  assert (pairwise_vals females males = Ok (cross_product females males)) as E.
  { apply pairwise_vals_defined. intros f m Hf Hm.
    assert (f == m) as Efm.
    { rewrite (proj1 (List.Forall_forall _ _) HF f Hf).
      now rewrite (proj1 (List.Forall_forall _ _) HM m Hm). }
    rewrite (DimorphismIndex_equal f m Efm). now apply ssdi_single_equal. }
  split.
  - rewrite E. apply (f_equal Ok). rewrite <- cross_product_length.
    apply zeros_repeat. now apply (cross_product_all_equal c).
  - unfold ssdi_pairwise. rewrite E. cbn [mbind res_bind].
    fold (average_pairwise females males).
    rewrite (average_pairwise_all_equal c) by assumption. eauto.
Qed.

End DegenerateSamples.

Lemma ssdi_pairwise_empty_witness :
  pairwise_vals [10; 0] [] = Ok [] /\
  ssdi_pairwise (fun _ _ => nan) [10; 0] [] false = Ok (nan, Str "NA").
Proof.
  apply (ssdi_pairwise_empty (fun _ _ => nan) [10; 0] [] false).
  right. reflexivity.
Defined.

Lemma ssdi_pairwise_all_equal_witness :
  pairwise_vals [0; 0] [0] = Ok (repeat 0 (2 * 1)) /\
  exists p, ssdi_pairwise (fun _ _ => nan) [0; 0] [0] true = Ok (fin 0, p).
Proof.
  apply (ssdi_pairwise_all_equal (fun _ _ => nan) 0 [0; 0] [0] true);
    try discriminate; repeat constructor.
Defined.

(** *** The permutation test beyond positive samples *)



Lemma splits_defined_empty females males :
  females = [] \/ males = [] -> splits_defined females males.
Proof.
  intros [-> | ->] randomized f m Hp Hf Hm.
  - destruct Hf.
  - rewrite app_nil_r in Hp. apply Permutation_length in Hp.
    rewrite drop_ge in Hm by lia. destruct Hm.
Qed.

Lemma splits_defined_all_equal c females males :
  all_equal c females -> all_equal c males -> splits_defined females males.
Proof.
  intros HF HM randomized f m Hp Hf Hm.
  assert (all_equal c randomized) as Hr.
  { unfold all_equal. rewrite Hp. now apply Forall_app. }
  assert (f == m) as E.
  { rewrite (proj1 (List.Forall_forall _ _) (Forall_take _ _ _ Hr) f Hf).
    now rewrite (proj1 (List.Forall_forall _ _) (Forall_drop _ _ _ Hr) m Hm). }
  rewrite (DimorphismIndex_equal f m E). now apply ssdi_single_equal.
Qed.

Section PermutationEdgeCases.

Variable ttest_1samp : list Q -> Q -> npfloat.

Lemma bootstrap_step females males i vals g :
  splits_defined females males ->
  exists x g',
    bootstrap ttest_1samp females (females ++ males) i (vals, g)
      = Ok (vals ++ [x], g') /\
    replicate females males g 0 x /\
    draws g' = draws g /\
    cursor g' = (cursor g + length (females ++ males))%nat.
Proof.
  intros Hdef. unfold bootstrap.
  destruct (random_sample_Permutation (females ++ males) g)
    as (randomized & g' & Hrun & Hperm & Hd & Hc).
  rewrite Hrun. cbn [mbind res_bind].
  pose proof (Permutation_length Hperm) as Hlen. rewrite length_app in Hlen.
  unfold ssdi_pairwise.
  rewrite pairwise_vals_defined by (intros f m; apply (Hdef randomized f m Hperm)).
  cbn [mbind res_bind negb].
  fold (average_pairwise (take (length females) randomized)
          (drop (length females) randomized)).
  eexists _, g'. split; [reflexivity|]. repeat split; try assumption.
  exists randomized, g'. repeat split; try assumption.
  - rewrite Nat.mul_0_l, Nat.add_0_r. destruct g; exact Hrun.
  - rewrite length_take. lia.
  - rewrite length_drop. lia.
Qed.

Lemma bootstrap_steps females males n : forall a vals g,
  splits_defined females males ->
  exists xs g',
    for_each (seq a n) (bootstrap ttest_1samp females (females ++ males)) (vals, g)
      = Ok (vals ++ xs, g') /\
    length xs = n /\
    (forall i x, xs !! i = Some x -> replicate females males g i x) /\
    draws g' = draws g /\
    cursor g' = (cursor g + n * length (females ++ males))%nat.
Proof.
  induction n as [|n IH]; intros a vals g Hdef.
  - exists [], g. simpl. rewrite app_nil_r. repeat split; [|lia].
    intros i x H. discriminate H.
  - cbn [seq for_each].
    destruct (bootstrap_step females males a vals g Hdef)
      as (x0 & g1 & Hstep & Hrep & Hd1 & Hc1).
    rewrite Hstep. cbn [mbind res_bind].
    destruct (IH (S a) (vals ++ [x0]) g1 Hdef)
      as (xs & g' & Hrun & Hlen & Hall & Hd & Hc).
    exists (x0 :: xs), g'. rewrite Hrun, <- app_assoc.
    repeat split; simpl; [congruence | | congruence | lia].
    intros [|i] x H; simpl in H.
    + injection H as <-. exact Hrep.
    + eapply replicate_shift; eauto.
Qed.

(** The test as a function of its null distribution. *)
Lemma run_permutations_from_loop females males emp g vals g' :
  for_each (seq 0 n_bootstraps)
    (bootstrap ttest_1samp females (females ++ males)) ([], g) = Ok (vals, g') ->
  run_permutations ttest_1samp females males emp g
  = Ok (np_round (np_percentile (list_sort vals) (25 # 10)) 3,
        np_round (np_percentile (list_sort vals) (975 # 10)) 3,
        format_pvalue (ptwotail (list_sort vals) emp), g').
Proof. intros H. unfold run_permutations. rewrite H. reflexivity. Qed.


End PermutationEdgeCases.



Lemma filter_none {A} (f : A -> bool) (l : list A) :
  (forall x, In x l -> f x = false) -> List.filter f l = [].
Proof.
  induction l as [|x l IH]; intros H; simpl; [reflexivity|].
  rewrite (H x) by (left; reflexivity). apply IH. intros y Hy. apply H. now right.
Qed.



Lemma all_fin_None (l : list npfloat) : In nan l -> all_fin l = None.
Proof.
  induction l as [|[|q] l IH]; simpl; [intros [] | reflexivity |].
  intros [H|H]; [discriminate H|]. now rewrite IH.
Qed.

Lemma nth_zeros (l : list Q) i : Forall (fun v => v = 0) l -> nth i l 0 = 0.
Proof.
  intros H. revert i. induction H as [|v l -> _ IH]; intros [|i]; simpl; auto.
Qed.

Lemma np_percentile_zeros (qs : list Q) q :
  Forall (fun v => v = 0) qs -> qs <> [] ->
  np_round (np_percentile (map fin qs) q) 3 = fin 0.
Proof.
  intros Hz Hne. unfold np_percentile.
  rewrite (proj2 (all_fin_Some (map fin qs) qs) eq_refl).
  destruct qs as [|v qs]; [congruence|].
  assert (Forall (fun v => v = 0) (merge_sort Qle_rel (v :: qs))) as Hs
    by (rewrite merge_sort_Permutation; exact Hz).
  unfold np_round, interpolate. apply (f_equal fin).
  rewrite !(nth_zeros _ _ Hs).
  transitivity (py_round 0 3); [|apply py_round_0].
  apply py_round_comp. ring.
Qed.

Section PermutationOutcomes.

Variable ttest_1samp : list Q -> Q -> npfloat.


(** X13.  When all the sizes of both sexes are one and the same number,
    every replicate is [0.0]: both percentile bounds are [0.0] and the
    p-value is reported as ["<0.001"], whatever the empirical value. *)
Theorem run_permutations_all_equal (c : Q) (females males : list Q)
    (emp_ssdi : npfloat) (g : random_state) :
  females <> [] -> males <> [] ->
  all_equal c females -> all_equal c males ->
  exists g',
    run_permutations ttest_1samp females males emp_ssdi g
      = Ok (fin 0, fin 0, Str "<0.001", g').
Proof.
  intros HnF HnM HF HM.
  destruct (bootstrap_steps ttest_1samp females males n_bootstraps 0 [] g
              (splits_defined_all_equal c _ _ HF HM))
    as (xs & g' & Hrun & Hlen & Hall & _).
  rewrite app_nil_l in Hrun. exists g'.
  rewrite (run_permutations_from_loop _ _ _ _ _ _ _ Hrun).
  assert (forall x, In x xs -> x = fin 0) as Hzero.
  { intros x Hx. apply list_elem_of_In, list_elem_of_lookup_1 in Hx as [i Hi].
    destruct (Hall i x Hi) as (randomized & _ & _ & Hperm & Lf & Lm & ->).
    assert (all_equal c randomized) as Hr.
    { unfold all_equal. rewrite Hperm. apply Forall_app. split; assumption. }
    apply (average_pairwise_all_equal c).
    - intros E. rewrite E in Lf. destruct females; simpl in Lf; congruence.
    - intros E. rewrite E in Lm. destruct males; simpl in Lm; congruence.
    - apply Forall_take, Hr.
    - apply Forall_drop, Hr. }
  assert (xs = map fin (repeat 0 (length xs))) as Exs.
  { clear -Hzero. induction xs as [|x xs IH]; [reflexivity|]. simpl.
    rewrite (Hzero x) by (left; reflexivity). f_equal.
    apply IH. intros y Hy. apply Hzero. right. exact Hy. }
  destruct (list_sort_fin (repeat 0 (length xs))) as (qs' & Hsort & Hperm).
  rewrite Exs, Hsort.
  assert (Forall (fun v => v = 0) qs') as Hz.
  { rewrite <- Hperm. apply List.Forall_forall. intros v Hv.
    apply repeat_spec in Hv. exact Hv. }
  assert (qs' <> []) as Hne.
  { intros ->. apply Permutation_length in Hperm.
    rewrite repeat_length, Hlen in Hperm. discriminate Hperm. }
  rewrite !np_percentile_zeros by assumption.
  assert (ptwotail (map fin qs') emp_ssdi = 1 # 10000) as ->.
  { unfold ptwotail. rewrite filter_none.
    - rewrite length_map, <- (Permutation_length Hperm), repeat_length, Hlen.
      unfold n_bootstraps. rewrite Z2Nat.id by lia. reflexivity.
    - intros x Hx. apply in_map_iff in Hx as (v & <- & Hv).
      rewrite (proj1 (List.Forall_forall _ _) Hz v Hv).
      destruct emp_ssdi as [|e]; [reflexivity|]. cbn.
      apply Qlt_bool_false. apply Qabs_nonneg. }
  reflexivity.
Qed.

(** Without a pair to compare every replicate is [nan]. *)
Lemma run_permutations_no_pairs (females males : list Q) (emp_ssdi : npfloat)
    (g : random_state) :
  females = [] \/ males = [] ->
  exists g',
    run_permutations ttest_1samp females males emp_ssdi g
      = Ok (nan, nan, Str "<0.001", g').
Proof.
  intros Hempty.
  destruct (bootstrap_steps ttest_1samp females males n_bootstraps 0 [] g
              (splits_defined_empty _ _ Hempty))
    as (xs & g' & Hrun & Hlen & Hall & _).
  rewrite app_nil_l in Hrun. exists g'.
  rewrite (run_permutations_from_loop _ _ _ _ _ _ _ Hrun).
  assert (forall x, In x xs -> x = nan) as Hnan.
  { intros x Hx. apply list_elem_of_In, list_elem_of_lookup_1 in Hx as [i Hi].
    destruct (Hall i x Hi) as (randomized & _ & _ & Hperm & Lf & Lm & ->).
    unfold average_pairwise.
    assert (cross_product (take (length females) randomized)
              (drop (length females) randomized) = []) as ->; [|reflexivity].
    destruct Hempty as [-> | ->].
    - reflexivity.
    - apply length_zero_iff_nil. rewrite cross_product_length, Lm. simpl. lia. }
  pose proof (merge_sort_Permutation np_sort_le xs) as Hp.
  fold (list_sort xs) in Hp.
  assert (forall x, In x (list_sort xs) -> x = nan) as Hnan'.
  { intros x Hx. apply Hnan. apply list_elem_of_In. rewrite <- Hp.
    apply list_elem_of_In. exact Hx. }
  assert (In nan (list_sort xs)) as Hin.
  { destruct (list_sort xs) as [|x l] eqn:E.
    - apply Permutation_length in Hp. rewrite Hlen in Hp. discriminate Hp.
    - left. apply Hnan'. left. reflexivity. }
  unfold np_percentile. rewrite (all_fin_None _ Hin). cbn [np_round].
  assert (ptwotail (list_sort xs) emp_ssdi = 1 # 10000) as ->.
  { unfold ptwotail. rewrite filter_none.
    - rewrite (Permutation_length Hp), Hlen.
      unfold n_bootstraps. rewrite Z2Nat.id by lia. reflexivity.
    - intros x Hx. rewrite (Hnan' x Hx). destruct emp_ssdi; reflexivity. }
  reflexivity.
Qed.

(** X14.  With no female or no male size the permutation test still
    returns: every replicate is [nan], so are the two bounds, and the
    p-value is reported as ["<0.001"]. *)
Theorem run_permutations_empty (females males : list Q) (emp_ssdi : npfloat)
    (g : random_state) :
  females = [] \/ males = [] ->
  exists g',
    run_permutations ttest_1samp females males emp_ssdi g
      = Ok (nan, nan, Str "<0.001", g').
Proof. apply run_permutations_no_pairs. Qed.

End PermutationOutcomes.


Lemma run_permutations_all_equal_witness :
  exists g',
    run_permutations (fun _ _ => nan) [5; 5] [5; 5] (fin 0)
      {| draws := fun _ => 1%nat; cursor := 0 |}
      = Ok (fin 0, fin 0, Str "<0.001", g').
Proof.
  apply (run_permutations_all_equal (fun _ _ => nan) 5 [5; 5] [5; 5]);
    try discriminate; repeat constructor.
Defined.

Lemma run_permutations_empty_witness :
  exists g',
    run_permutations (fun _ _ => nan) [] [10; 0] (fin 0)
      {| draws := fun _ => 1%nat; cursor := 0 |}
      = Ok (nan, nan, Str "<0.001", g').
Proof.
  apply (run_permutations_empty (fun _ _ => nan) [] [10; 0]). left. reflexivity.
Defined.

(** *** The two percentile bounds *)





(** *** The result mapping, species by species *)

Section RowProperties.

Variable ttest_1samp : list Q -> Q -> npfloat.

Lemma species_step_stored k v calc g calc' g' :
  species_step ttest_1samp (k, v) (calc, g) = Ok (calc', g') ->
  exists r, species_tests ttest_1samp v g = Ok (r, g') /\
    (forall k0, k0 <> k -> calc' !! k0 = calc !! k0) /\
    (calc !! k = None -> calc' !! k = stored_row v r).
Proof.
  unfold species_step.
  destruct (species_tests ttest_1samp v g) as [[[[x t]|] g1]|e] eqn:E;
    cbn [mbind res_bind]; try (intros X; discriminate X).
  - unfold truthy. destruct (Qeq_bool x 0) eqn:Ex; cbn [negb].
    + intros [= <- <-]. exists (Some (x, t)). split; [reflexivity|].
      unfold stored_row. rewrite Ex. auto.
    + intros [= <- <-]. exists (Some (x, t)). split; [reflexivity|].
      unfold stored_row. rewrite Ex. split.
      * intros k0 Hne. apply lookup_insert_ne. congruence.
      * intros _. apply lookup_insert_eq.
  - intros [= <- <-]. exists None. split; [reflexivity|]. cbn. auto.
Qed.

Lemma for_each_species_step_other l : forall calc g calc' g' k,
  for_each l (species_step ttest_1samp) (calc, g) = Ok (calc', g') ->
  ~ In k l.*1 -> calc' !! k = calc !! k.
Proof.
  induction l as [|[k1 v1] l IH]; intros calc g calc' g' k; cbn [for_each].
  - intros [= <- <-] _. reflexivity.
  - destruct (species_step ttest_1samp (k1, v1) (calc, g)) as [[calc1 g1]|e] eqn:E;
      cbn [mbind res_bind]; [|intros X; discriminate X].
    intros H Hnot.
    assert (k <> k1 /\ ~ In k l.*1) as [Hne Hrest].
    { split; [intros -> | intros Hi]; apply Hnot; [left | right]; auto. }
    destruct (species_step_stored _ _ _ _ _ _ E) as (r & _ & Hother & _).
    rewrite (IH _ _ _ _ _ H) by exact Hrest. apply Hother. exact Hne.
Qed.

Lemma for_each_species_step_stored l : forall calc g calc' g' k v,
  for_each l (species_step ttest_1samp) (calc, g) = Ok (calc', g') ->
  NoDup l.*1 -> In (k, v) l -> calc !! k = None ->
  exists gk gk' r, species_tests ttest_1samp v gk = Ok (r, gk') /\
    calc' !! k = stored_row v r.
Proof.
  induction l as [|[k1 v1] l IH]; intros calc g calc' g' k v; cbn [for_each].
  - intros _ _ [].
  - destruct (species_step ttest_1samp (k1, v1) (calc, g)) as [[calc1 g1]|e] eqn:E;
      cbn [mbind res_bind]; [|intros X; discriminate X].
    intros H Hnd Hin Hnone. cbn in Hnd. apply NoDup_cons in Hnd as [Hnotin Hnd].
    destruct (species_step_stored _ _ _ _ _ _ E) as (r & Ht & Hother & Hsame).
    destruct Hin as [[= -> ->]|Hin].
    + exists g, g1, r. split; [exact Ht|].
      rewrite (for_each_species_step_other _ _ _ _ _ _ H).
      * now apply Hsame.
      * intros Hk. apply Hnotin. apply list_elem_of_In. exact Hk.
    + assert (k <> k1) as Hne.
      { intros ->. apply Hnotin. apply list_elem_of_fmap.
        exists (k1, v). split; [reflexivity | now apply list_elem_of_In]. }
      apply (IH _ _ _ _ _ _ H Hnd Hin). rewrite Hother by assumption. exact Hnone.
Qed.

(** X15.  When the analysis of all species succeeds, the result mapping
    has no key outside the species mapping, and the entry of each
    species is decided by its own branch alone: a row with its two
    counts, its index and the locals of the branch when the index is
    there and not zero, no entry otherwise. *)
Theorem run_ssdi_calculations_stored (species_dict : gmap string cohort)
    (g : random_state) (calc : gmap string result) (g' : random_state) :
  run_ssdi_calculations ttest_1samp species_dict g = Ok (calc, g') ->
  (forall k, species_dict !! k = None -> calc !! k = None) /\
  (forall k v, species_dict !! k = Some v ->
     exists gk gk' r, species_tests ttest_1samp v gk = Ok (r, gk') /\
       calc !! k = stored_row v r).
Proof.
  unfold run_ssdi_calculations. intros H. split.
  - intros k Hk. rewrite (for_each_species_step_other _ _ _ _ _ _ H).
    + apply lookup_empty.
    + intros Hin. apply in_map_iff in Hin as ([k' v] & <- & Hin).
      apply sorted_items_lookup in Hin. cbn in Hk. congruence.
  - intros k v Hk.
    apply (for_each_species_step_stored _ _ _ _ _ _ _ H).
    + apply sorted_items_NoDup_keys.
    + apply list_elem_of_In. unfold sorted_items.
      rewrite merge_sort_Permutation. now apply elem_of_map_to_list.
    + apply lookup_empty.
Qed.

Lemma pairwise_tests_numbers v x af am g t g' :
  pairwise_tests ttest_1samp v x af am g = Ok (t, g') ->
  exists avg lo hi,
    avg_ssdi t = Flt avg /\ low t = Flt lo /\ high t = Flt hi /\
    diff t = Flt (np_abs (np_sub (fin x) avg)) /\ avgf t = af /\ avgm t = am.
Proof.
  unfold pairwise_tests.
  destruct (ssdi_pairwise ttest_1samp (F v) (M v) true) as [[avg p]|e];
    cbn [mbind res_bind]; [|intros X; discriminate X].
  destruct (run_permutations ttest_1samp (F v) (M v) avg g)
    as [[[[lo hi] pp] g1]|e]; cbn [mbind res_bind]; [|intros X; discriminate X].
  intros [= <- <-]. exists avg, lo, hi. cbn. auto 10.
Qed.

(** The locals of a branch that gave an index. *)
Lemma species_tests_fields v g x t g' :
  species_tests ttest_1samp v g = Ok (Some (x, t), g') ->
  (length (F v) = 1%nat /\ length (M v) = 1%nat /\ t = all_NA /\ g' = g /\
   exists f0 m0, F v = [f0] /\ M v = [m0] /\ ssdi_single f0 m0 = Ok x) \/
  ((1 < length (F v) \/ 1 < length (M v))%nat /\
   exists avg lo hi,
     avg_ssdi t = Flt avg /\ low t = Flt lo /\ high t = Flt hi /\
     diff t = Flt (np_abs (np_sub (fin x) avg))).
Proof.
  unfold species_tests, getitem.
  destruct (F v) as [|f0 [|f1 fs]] eqn:EF; destruct (M v) as [|m0 [|m1 ms]] eqn:EM;
    cbn [length Nat.eqb Nat.ltb Nat.leb andb lookup list_lookup mbind res_bind];
    try (intros X; discriminate X).
  - destruct (ssdi_single f0 m0) as [y|e] eqn:Ey; cbn [mbind res_bind];
      [|intros X; discriminate X].
    intros [= <- <- <-]. left. repeat split. eauto.
  - destruct (ssdi_single_np _ _) as [y|e]; cbn [mbind res_bind];
      [|intros X; discriminate X].
    destruct (pairwise_tests _ _ _ _ _ _) as [[t1 g1]|e] eqn:Ep;
      cbn [mbind res_bind]; [|intros X; discriminate X].
    intros [= <- <- <-]. right. split; [right; simpl; lia|].
    destruct (pairwise_tests_numbers _ _ _ _ _ _ _ Ep)
      as (avg & lo & hi & H1 & H2 & H3 & H4 & _). eauto 10.
  - destruct (ssdi_single_np _ _) as [y|e]; cbn [mbind res_bind];
      [|intros X; discriminate X].
    destruct (pairwise_tests _ _ _ _ _ _) as [[t1 g1]|e] eqn:Ep;
      cbn [mbind res_bind]; [|intros X; discriminate X].
    intros [= <- <- <-]. right. split; [left; simpl; lia|].
    destruct (pairwise_tests_numbers _ _ _ _ _ _ _ Ep)
      as (avg & lo & hi & H1 & H2 & H3 & H4 & _). eauto 10.
  - destruct (ssdi_single_np _ _) as [y|e]; cbn [mbind res_bind];
      [|intros X; discriminate X].
    destruct (pairwise_tests _ _ _ _ _ _) as [[t1 g1]|e] eqn:Ep;
      cbn [mbind res_bind]; [|intros X; discriminate X].
    intros [= <- <- <-]. right. split; [left; simpl; lia|].
    destruct (pairwise_tests_numbers _ _ _ _ _ _ _ Ep)
      as (avg & lo & hi & H1 & H2 & H3 & H4 & _). eauto 10.
Qed.

(** X16.  In a row of the result mapping the pairwise fields are ["NA"]
    exactly when the species has one female and one male; all eight
    fields are then ["NA"] and the index is that of the two raw sizes.
    In every other row the average pairwise index, the two bounds and the
    absolute difference are numbers, the difference being
    [|ssdi - avg_ssdi|]. *)
Theorem run_ssdi_calculations_NA_fields (species_dict : gmap string cohort)
    (g : random_state) (calc : gmap string result) (g' : random_state)
    (k : string) (r : result) :
  run_ssdi_calculations ttest_1samp species_dict g = Ok (calc, g') ->
  calc !! k = Some r ->
  exists v, species_dict !! k = Some v /\
    (avg_ssdi (fields r) = Str "NA" <->
       length (F v) = 1%nat /\ length (M v) = 1%nat) /\
    (length (F v) = 1%nat /\ length (M v) = 1%nat ->
       fields r = all_NA /\
       exists f0 m0, F v = [f0] /\ M v = [m0] /\ ssdi_single f0 m0 = Ok (ssdi r)) /\
    ((1 < length (F v) \/ 1 < length (M v))%nat ->
       exists avg lo hi,
         avg_ssdi (fields r) = Flt avg /\ low (fields r) = Flt lo /\
         high (fields r) = Flt hi /\
         diff (fields r) = Flt (np_abs (np_sub (fin (ssdi r)) avg))).
Proof.
  intros H Hr.
  destruct (run_ssdi_calculations_rows _ _ _ _ _ _ _ H Hr)
    as (v & g1 & g2 & Hk & _ & _ & _ & _ & _ & Ht).
  exists v. split; [exact Hk|].
  destruct (species_tests_fields _ _ _ _ _ Ht)
    as [(LF & LM & Hna & _ & Hraw)|(Hmore & avg & lo & hi & H1 & H2 & H3 & H4)].
  - rewrite Hna. repeat split; auto; try lia.
  - split; [|split].
    + rewrite H1. split; [discriminate | lia].
    + lia.
    + intros _. eauto 10.
Qed.

End RowProperties.

Lemma run_ssdi_calculations_stored_witness :
  (forall k, unknown_sex_dict !! k = None -> unknown_sex_result !! k = None) /\
  (forall k v, unknown_sex_dict !! k = Some v ->
     exists gk gk' r, species_tests (fun _ _ => nan) v gk = Ok (r, gk') /\
       unknown_sex_result !! k = stored_row v r).
Proof.
  apply (run_ssdi_calculations_stored (fun _ _ => nan) unknown_sex_dict
           {| draws := fun _ => 0%nat; cursor := 0 |} unknown_sex_result
           {| draws := fun _ => 0%nat; cursor := 0 |}).
  vm_compute. reflexivity.
Defined.

Lemma run_ssdi_calculations_NA_fields_witness :
  exists v, unknown_sex_dict !! "Fox"%string = Some v /\
    (Str "NA" = Str "NA" <-> length (F v) = 1%nat /\ length (M v) = 1%nat) /\
    (length (F v) = 1%nat /\ length (M v) = 1%nat ->
       all_NA = all_NA /\
       exists f0 m0, F v = [f0] /\ M v = [m0] /\ ssdi_single f0 m0 = Ok (1 # 5)) /\
    ((1 < length (F v) \/ 1 < length (M v))%nat ->
       exists avg lo hi,
         Str "NA" = Flt avg /\ Str "NA" = Flt lo /\ Str "NA" = Flt hi /\
         Str "NA" = Flt (np_abs (np_sub (fin (1 # 5)) avg))).
Proof.
  apply (run_ssdi_calculations_NA_fields (fun _ _ => nan) unknown_sex_dict
           {| draws := fun _ => 0%nat; cursor := 0 |} unknown_sex_result
           {| draws := fun _ => 0%nat; cursor := 0 |} "Fox"
           {| males := 1; females := 1; ssdi := 1 # 5; fields := all_NA |}).
  - vm_compute. reflexivity.
  - vm_compute. reflexivity.
Defined.

(** *** The result files *)

Lemma string_ltb_asym a b : String.ltb a b = true -> String.ltb b a = true -> False.
Proof.
  unfold String.ltb. rewrite (String.compare_antisym a b).
  destruct (String.compare b a); simpl; discriminate.
Qed.

(** Two lists with the same elements, both in strictly increasing order
    of their keys, are the same list. *)
Lemma sorted_unique {V} (l1 : list (string * V)) : forall l2,
  StronglySorted (fun x y => String.ltb x.1 y.1 = true) l1 ->
  StronglySorted (fun x y => String.ltb x.1 y.1 = true) l2 ->
  l1 ≡ₚ l2 -> l1 = l2.
Proof.
  induction l1 as [|x l1 IH]; intros l2 H1 H2 Hp.
  - apply Permutation_nil_l in Hp. now subst.
  - destruct l2 as [|y l2]; [apply Permutation_nil_r in Hp; discriminate Hp|].
    apply StronglySorted_inv in H1 as [H1 Hx].
    apply StronglySorted_inv in H2 as [H2 Hy].
    assert (x = y) as ->.
    { assert (x ∈ y :: l2) as Hin1 by (rewrite <- Hp; left).
      assert (y ∈ x :: l1) as Hin2 by (rewrite Hp; left).
      apply elem_of_cons in Hin1 as [E|Hin1]; [exact E|].
      apply elem_of_cons in Hin2 as [E|Hin2]; [now symmetry|].
      apply list_elem_of_In in Hin1, Hin2.
      exfalso. apply (string_ltb_asym x.1 y.1).
      - apply (proj1 (List.Forall_forall _ _) Hx y Hin2).
      - apply (proj1 (List.Forall_forall _ _) Hy x Hin1). }
    f_equal. apply IH; [assumption | assumption |].
    now apply Permutation_cons_inv in Hp.
Qed.

#[local] Instance row_le_total : Total row_le.
Proof.
  intros x y. unfold row_le. rewrite !Is_true_true. apply String.leb_total.
Qed.

#[local] Instance row_le_trans : Transitive row_le.
Proof.
  intros x y z. unfold row_le. rewrite !Is_true_true. apply string_leb_trans.
Qed.

Lemma sorted_rows_Permutation (calc_dict : gmap string result) :
  sorted_rows calc_dict ≡ₚ map_to_list calc_dict.
Proof. apply merge_sort_Permutation. Qed.

Lemma sorted_rows_strict (calc_dict : gmap string result) :
  StronglySorted (fun x y => String.ltb x.1 y.1 = true) (sorted_rows calc_dict).
Proof.
  assert (NoDup (sorted_rows calc_dict).*1) as Hnd
    by (rewrite sorted_rows_Permutation; apply NoDup_fst_map_to_list).
  assert (StronglySorted row_le (sorted_rows calc_dict)) as Hs
    by (apply StronglySorted_merge_sort; apply _).
  revert Hnd. induction Hs as [|x l Hl IH Hx]; intros Hnd; [constructor|].
  cbn in Hnd. apply NoDup_cons in Hnd as [Hnotin Hnd].
  constructor; [now apply IH|].
  rewrite List.Forall_forall in Hx |- *. intros y Hy.
  specialize (Hx y Hy). unfold row_le in Hx. apply Is_true_true in Hx.
  unfold String.leb in Hx. unfold String.ltb.
  destruct (String.compare x.1 y.1) eqn:E; [|reflexivity|discriminate].
  apply String.compare_eq_iff in E. exfalso. apply Hnotin.
  rewrite E. apply list_elem_of_fmap. exists y. split; [reflexivity|].
  now apply list_elem_of_In.
Qed.

Lemma sorted_rows_fmap (f : result -> result) (calc_dict : gmap string result) :
  sorted_rows (f <$> calc_dict) = prod_map id f <$> sorted_rows calc_dict.
Proof.
  apply sorted_unique.
  - apply sorted_rows_strict.
  - pose proof (sorted_rows_strict calc_dict) as Hs.
    induction Hs as [|x l Hl IH Hx]; [constructor|].
    cbn. constructor; [exact IH|].
    rewrite List.Forall_forall in Hx |- *. intros y Hy.
    apply in_map_iff in Hy as (y0 & <- & Hy0).
    destruct x as [kx rx], y0 as [ky ry]. exact (Hx _ Hy0).
  - rewrite sorted_rows_Permutation, map_to_list_fmap.
    now rewrite sorted_rows_Permutation.
Qed.

Section OutputProperties.

Variable str_int : nat -> string.
Variable str_float : Q -> string.

(** X18.  The t-test p-value of a row never reaches the files: replacing
    it in every row leaves both files unchanged (the column
    [Dimorphism_PValue] holds the p-value of the permutation test). *)
Theorem write_output_ignores_p_pair (p : pyval) (calc_dict : gmap string result) :
  write_output str_int str_float (with_p_pair p <$> calc_dict)
  = write_output str_int str_float calc_dict.
Proof.
  unfold write_output. rewrite sorted_rows_fmap.
  assert (forall sep,
    map (fun kv => output_line sep (row_values str_int str_float kv.1 kv.2))
        (prod_map id (with_p_pair p) <$> sorted_rows calc_dict)
    = map (fun kv => output_line sep (row_values str_int str_float kv.1 kv.2))
        (sorted_rows calc_dict)) as E.
  { intros sep. induction (sorted_rows calc_dict) as [|[k r] rows IH];
      [reflexivity|]. cbn. f_equal. exact IH. }
  now rewrite !E.
Qed.

End OutputProperties.

(** * The engine over any arithmetic *)

(** ** Uniform sampling *)

Lemma sample_loop_fmap {B C} (f : B -> C) steps :
  forall i n (pool result : list B) g r g',
  sample_loop steps i n pool result g = Ok (r, g') ->
  sample_loop steps i n (f <$> pool) (f <$> result) g = Ok (f <$> r, g').
Proof.
  induction steps as [|s IH]; intros i n pool result g r g' H.
  - simpl in *. injection H as <- <-. reflexivity.
  - cbn [sample_loop randbelow] in *. unfold getitem in *.
    rewrite !list_lookup_fmap.
    destruct (pool !! (_ `mod` _)%nat) as [x|];
      cbn [fmap option_fmap option_map mbind res_bind] in *; [|discriminate H].
    destruct (pool !! (n - i - 1)%nat) as [y|];
      cbn [fmap option_fmap option_map mbind res_bind] in *; [|discriminate H].
    apply IH in H. rewrite fmap_app, list_fmap_insert in H. exact H.
Qed.

Lemma map_nth_seq {B} (l : list B) d :
  l = (fun p => nth p l d) <$> seq 0 (length l).
Proof.
  apply list_eq. intros i. rewrite list_lookup_fmap.
  destruct (decide (i < length l)%nat) as [Hi|Hi].
  - rewrite lookup_seq_lt by exact Hi. cbn.
    destruct (lookup_lt_is_Some_2 l i Hi) as [x Hx]. rewrite Hx.
    f_equal. symmetry. now apply nth_lookup_Some.
  - rewrite lookup_seq_ge by lia. cbn. apply lookup_ge_None_2. lia.
Qed.

(** A sample of a list is the sample of its positions, read off the list. *)
Lemma random_sample_positions {B} (pool : list B) d g r g' :
  random_sample pool (length pool) g = Ok (r, g') ->
  exists positions,
    random_sample (seq 0 (length pool)) (length pool) g = Ok (positions, g') /\
    r = map (fun p => nth p pool d) positions.
Proof.
  intros H.
  destruct (random_sample_Permutation (seq 0 (length pool)) g)
    as (positions & g1 & Hrun & _).
  rewrite length_seq in Hrun.
  assert (random_sample pool (length pool) g
          = Ok ((fun p => nth p pool d) <$> positions, g1)) as H'.
  { unfold random_sample in *. rewrite length_seq in Hrun.
    rewrite Nat.ltb_irrefl in *.
    apply (sample_loop_fmap (fun p => nth p pool d)) in Hrun.
    rewrite <- map_nth_seq in Hrun. exact Hrun. }
  rewrite H in H'. injection H' as -> ->.
  exists positions. split; [exact Hrun | reflexivity].
Qed.





(** ** Exact arithmetic obeys the laws *)

Lemma exact_arith_laws : Generic.arith_laws exact_arith.
Proof.
  constructor;
    unfold Generic.number, Generic.positive_sizes, Generic.positive; cbn.
  - intros x _. apply Qeq_bool_iff. reflexivity.
  - intros x Hx. apply Qlt_bool_iff in Hx.
    destruct (Qeq_bool x (inject_Z 0)) eqn:E; [|reflexivity].
    apply Qeq_bool_iff in E. change (inject_Z 0) with 0 in *. lra.
  - intros x y _ _. destruct (Q_dec x y) as [[H|H]|H].
    + left. now apply Qlt_bool_iff.
    + right. left. now apply Qlt_bool_iff.
    + right. right. now apply Qeq_bool_iff.
  - intros x y H. apply Qlt_bool_iff in H. apply Qlt_bool_false. lra.
  - intros x y H. apply Qeq_bool_iff in H. split; apply Qlt_bool_false; lra.
  - intros l _ _. apply Qeq_bool_iff. reflexivity.
  - intros x nd _. apply Qeq_bool_iff. reflexivity.
  - intros n.
    destruct (Qeq_bool (inject_Z (Z.of_nat n) + inject_Z 1) (inject_Z 0)) eqn:E;
      [|reflexivity].
    apply Qeq_bool_iff in E.
    assert (0 <= inject_Z (Z.of_nat n)) as Hn
      by (change 0 with (inject_Z 0); rewrite <- Zle_Qle; lia).
    change (inject_Z 1) with 1 in E. change (inject_Z 0) with 0 in E. lra.
  - intros l. apply merge_sort_Permutation.
Qed.

(** The exact embedding of the index and of the pairwise loops is the
    generic one at [exact_arith]. *)
Lemma exact_ssdi_single (f m : Q) :
  Generic.ssdi_single exact_arith false f m = ssdi_single f m.
Proof. reflexivity. Qed.

Lemma exact_pairwise_vals (females males : list Q) :
  Generic.pairwise_vals exact_arith females males = pairwise_vals females males.
Proof. reflexivity. Qed.

Section EngineProperties.

Variable A : Generic.arith.
Hypothesis laws : Generic.arith_laws A.

(** *** The dimorphism index *)

Lemma arith_truediv_positive numpy x y :
  Generic.positive A y ->
  Generic.truediv A numpy x y = Ok (Generic.div A x y).
Proof.
  intros Hy. unfold Generic.truediv.
  rewrite (Generic.positive_nonzero A laws y Hy), andb_false_r. reflexivity.
Qed.

Lemma arith_ssdi_single_male_larger numpy f m :
  Generic.positive A f -> Generic.ltb A f m = true ->
  Generic.ssdi_single A numpy f m
  = Ok (Generic.round A numpy
          (Generic.mul A (Generic.of_Z A (-1))
             (Generic.sub A (Generic.div A m f) (Generic.of_Z A 1))) 3).
Proof.
  intros Hf Hlt. unfold Generic.ssdi_single. rewrite Hlt.
  rewrite arith_truediv_positive by exact Hf. reflexivity.
Qed.

Lemma arith_ssdi_single_female_larger numpy f m :
  Generic.positive A m -> Generic.ltb A m f = true ->
  Generic.ssdi_single A numpy f m
  = Ok (Generic.round A numpy
          (Generic.sub A (Generic.div A f m) (Generic.of_Z A 1)) 3).
Proof.
  intros Hm Hgt. unfold Generic.ssdi_single.
  rewrite (Generic.ltb_asym A laws m f Hgt), Hgt.
  rewrite arith_truediv_positive by exact Hm. reflexivity.
Qed.

Lemma arith_ssdi_single_equal numpy f m :
  Generic.eqb A f m = true ->
  Generic.ssdi_single A numpy f m = Ok (Generic.of_Z A 0).
Proof.
  intros E. unfold Generic.ssdi_single.
  destruct (Generic.eqb_not_ltb A laws f m E) as [-> ->]. now rewrite E.
Qed.

Lemma arith_ssdi_single_DimorphismIndex numpy f m :
  Generic.positive A f -> Generic.positive A m ->
  Generic.ssdi_single A numpy f m = Ok (Generic.DimorphismIndex A numpy f m).
Proof.
  intros Hf Hm. unfold Generic.DimorphismIndex.
  destruct (Generic.ltb A f m) eqn:E1.
  - now apply arith_ssdi_single_male_larger.
  - destruct (Generic.ltb A m f) eqn:E2.
    + now apply arith_ssdi_single_female_larger.
    + apply arith_ssdi_single_equal.
      destruct (Generic.trichotomy A laws f m) as [H|[H|H]];
        try (now apply (Generic.positive_number A laws)); congruence.
Qed.

(** C3.  On strictly positive sizes [ssdi_single f m] is
    [-1 * ((m / f) - 1)] rounded to 3 decimals when [m > f], [(f / m) - 1]
    rounded to 3 decimals when [f > m], and exactly [0.0] when [f == m];
    one of the three holds, so the function returns.  Quotient,
    difference, product and rounding are those of the interpreter's
    arithmetic, whatever their values. *)
Theorem ssdi_single_formula (numpy : bool) (f m : Generic.float A) :
  Generic.positive A f -> Generic.positive A m ->
  (Generic.ltb A f m = true ->
   Generic.ssdi_single A numpy f m
   = Ok (Generic.round A numpy
           (Generic.mul A (Generic.of_Z A (-1))
              (Generic.sub A (Generic.div A m f) (Generic.of_Z A 1))) 3)) /\
  (Generic.ltb A m f = true ->
   Generic.ssdi_single A numpy f m
   = Ok (Generic.round A numpy
           (Generic.sub A (Generic.div A f m) (Generic.of_Z A 1)) 3)) /\
  (Generic.eqb A f m = true ->
   Generic.ssdi_single A numpy f m = Ok (Generic.of_Z A 0)) /\
  (Generic.ltb A f m = true \/ Generic.ltb A m f = true \/
   Generic.eqb A f m = true).
Proof.
  intros Hf Hm. split; [|split; [|split]].
  - now apply arith_ssdi_single_male_larger.
  - now apply arith_ssdi_single_female_larger.
  - apply arith_ssdi_single_equal.
  - apply (Generic.trichotomy A laws); now apply (Generic.positive_number A laws).
Qed.

(** *** The pairwise estimator *)

Lemma arith_pairwise_vals_cross_product females males :
  Generic.positive_sizes A females -> Generic.positive_sizes A males ->
  Generic.pairwise_vals A females males
  = Ok (Generic.cross_product A females males).
Proof.
  intros HF HM. unfold Generic.pairwise_vals, Generic.cross_product.
  rewrite (for_each_ext females _
             (fun f vals =>
                Ok (vals ++ map (fun m => Generic.DimorphismIndex A false f m) males))).
  - now rewrite for_each_append.
  - intros f vals Hf.
    pose proof (proj1 (List.Forall_forall _ _) HF f Hf) as Hpos.
    rewrite (for_each_ext males _
               (fun m vals => Ok (vals ++ [Generic.DimorphismIndex A false f m]))).
    + rewrite for_each_append.
      replace (flat_map (fun m => [Generic.DimorphismIndex A false f m]) males)
        with (map (fun m => Generic.DimorphismIndex A false f m) males);
        [reflexivity|].
      clear. induction males as [|m ms IH]; simpl; congruence.
    + intros m acc Hm.
      pose proof (proj1 (List.Forall_forall _ _) HM m Hm) as Hpos'.
      now rewrite arith_ssdi_single_DimorphismIndex.
Qed.

Lemma arith_cross_product_length females males :
  length (Generic.cross_product A females males)
  = (length females * length males)%nat.
Proof.
  unfold Generic.cross_product.
  induction females as [|f fs IH]; simpl; [reflexivity|].
  rewrite length_app, length_map, IH. reflexivity.
Qed.

Lemma arith_ssdi_pairwise_outcome females males (ttest : bool) :
  Generic.positive_sizes A females -> Generic.positive_sizes A males ->
  Generic.ssdi_pairwise A females males ttest
  = Ok (Generic.np_round A
          (Generic.np_mean A (Generic.cross_product A females males)) 3,
        if ttest
        then Generic.formatted_pvalue A
               (Generic.ttest_1samp A (Generic.cross_product A females males)
                  (Generic.of_Z A 0))
        else Generic.Str "NA").
Proof.
  intros HF HM. unfold Generic.ssdi_pairwise.
  rewrite arith_pairwise_vals_cross_product by assumption.
  destruct ttest; reflexivity.
Qed.

(** C6.  On [n >= 1] female and [m >= 1] male positive sizes the
    estimator computes the [n * m] indices of all (female, male) pairs,
    one per pair, and returns what rounding their [np.mean] to 3 decimals
    gives; with the t-test requested the p-value is ["<0.001"] when the
    test's p-value is at most 0.001 and that p-value rounded to 3
    decimals otherwise; without it the p-value is ["NA"]. *)
Theorem ssdi_pairwise_mean_and_pvalue
    (females males : list (Generic.float A)) (ttest : bool) :
  (1 <= length females)%nat -> (1 <= length males)%nat ->
  Generic.positive_sizes A females -> Generic.positive_sizes A males ->
  let vals := Generic.cross_product A females males in
  Generic.pairwise_vals A females males = Ok vals /\
  length vals = (length females * length males)%nat /\
  Forall2 (fun pair v => Generic.ssdi_single A false pair.1 pair.2 = Ok v)
    (list_prod females males) vals /\
  Generic.ssdi_pairwise A females males ttest =
    Ok (Generic.np_round A (Generic.np_mean A vals) 3,
        if ttest
        then (if Generic.leb A (Generic.ttest_1samp A vals (Generic.of_Z A 0))
                   (Generic.milli A)
              then Generic.Str "<0.001"
              else Generic.Flt
                     (Generic.np_round A
                        (Generic.ttest_1samp A vals (Generic.of_Z A 0)) 3))
        else Generic.Str "NA").
Proof.
  intros HnF HnM HF HM vals.
  split; [now apply arith_pairwise_vals_cross_product|].
  split; [apply arith_cross_product_length|].
  split; [|now apply arith_ssdi_pairwise_outcome].
  unfold vals, Generic.cross_product. clear HnF HnM.
  induction HF as [|f fs Hf HF IH]; simpl; [constructor|].
  apply Forall2_app; [|exact IH].
  clear IH. induction HM as [|m ms Hm HM IH]; simpl; constructor.
  - now apply arith_ssdi_single_DimorphismIndex.
  - exact IH.
Qed.

End EngineProperties.

Lemma ssdi_single_formula_witness :
  Generic.ssdi_single exact_arith false 10 8 = Ok (1 # 4) /\
  Generic.ssdi_single exact_arith false 8 10 = Ok (- (1 # 4)) /\
  Generic.ssdi_single exact_arith true 5 5 = Ok 0.
Proof.
  split; [|split].
  - destruct (ssdi_single_formula exact_arith exact_arith_laws false 10 8
                eq_refl eq_refl) as (_ & H & _).
    rewrite H; reflexivity.
  - destruct (ssdi_single_formula exact_arith exact_arith_laws false 8 10
                eq_refl eq_refl) as (H & _).
    rewrite H; reflexivity.
  - destruct (ssdi_single_formula exact_arith exact_arith_laws true 5 5
                eq_refl eq_refl) as (_ & _ & H & _).
    rewrite H; reflexivity.
Defined.

Lemma ssdi_pairwise_mean_and_pvalue_witness :
  Generic.pairwise_vals exact_arith [10; 12] [8] = Ok [1 # 4; 1 # 2] /\
  length (Generic.cross_product exact_arith [10; 12] [8]) = 2%nat /\
  Generic.ssdi_pairwise exact_arith [10; 12] [8] true
    = Ok (3 # 8, Generic.Flt (A := exact_arith) (1 # 20)).
Proof.
  assert (Generic.positive_sizes exact_arith [10; 12]) as HF
    by (repeat constructor).
  assert (Generic.positive_sizes exact_arith [8]) as HM
    by (repeat constructor).
  destruct (ssdi_pairwise_mean_and_pvalue exact_arith exact_arith_laws
              [10; 12] [8] true ltac:(simpl; lia) ltac:(simpl; lia) HF HM)
    as (H1 & H2 & _ & H3).
  split; [exact H1|]. split; [exact H2|]. exact H3.
Defined.

Section PermutationEngine.

Variable A : Generic.arith.
Hypothesis laws : Generic.arith_laws A.

(** *** The permutation test *)

Lemma arith_positive_sizes_Permutation l l' :
  l ≡ₚ l' -> Generic.positive_sizes A l -> Generic.positive_sizes A l'.
Proof. intros Hp H. unfold Generic.positive_sizes in *. now rewrite <- Hp. Qed.

(** One pass through the loop body appends one replicate and consumes
    one draw per pooled size. *)
Lemma arith_bootstrap_replicate females males i vals g :
  Generic.positive_sizes A (females ++ males) ->
  exists x g',
    Generic.bootstrap A females (females ++ males) i (vals, g)
      = Ok (vals ++ [x], g') /\
    Generic.replicate A females males g 0 x /\
    draws g' = draws g /\
    cursor g' = (cursor g + length (females ++ males))%nat.
Proof.
  intros Hpos. unfold Generic.bootstrap.
  destruct (random_sample_Permutation (females ++ males) g)
    as (randomized & g' & Hrun & Hperm & Hd & Hc).
  rewrite Hrun. cbn [mbind res_bind].
  pose proof (Permutation_length Hperm) as Hlen. rewrite length_app in Hlen.
  assert (Generic.positive_sizes A randomized) as Hr
    by (eapply arith_positive_sizes_Permutation; [symmetry|]; eassumption).
  assert (Generic.positive_sizes A (take (length females) randomized)) as Hpf
    by (apply Forall_take, Hr).
  assert (Generic.positive_sizes A (drop (length females) randomized)) as Hpm
    by (apply Forall_drop, Hr).
  rewrite (arith_ssdi_pairwise_outcome A laws _ _ false Hpf Hpm).
  cbn [mbind res_bind].
  eexists _, g'. split; [reflexivity|]. repeat split; try assumption.
  destruct (random_sample_positions (females ++ males) (Generic.of_Z A 0)
              g randomized g' Hrun) as (positions & Hpos' & Hmap).
  exists randomized, positions, g'.
  rewrite Nat.mul_0_l, Nat.add_0_r.
  replace {| draws := draws g; cursor := cursor g |} with g by (now destruct g).
  split; [exact Hrun|]. split; [exact Hpos'|]. split; [exact Hmap|].
  split; [exact Hperm|].
  split; [rewrite length_take; lia|].
  split; [rewrite length_drop; lia|].
  now apply arith_ssdi_pairwise_outcome.
Qed.

Lemma arith_replicate_shift females males g g1 j x :
  draws g1 = draws g ->
  cursor g1 = (cursor g + length (females ++ males))%nat ->
  Generic.replicate A females males g1 j x ->
  Generic.replicate A females males g (S j) x.
Proof.
  intros Hd Hc (randomized & positions & g' & Hrun & Hpos & H).
  exists randomized, positions, g'.
  replace (cursor g + S j * length (females ++ males))%nat
    with (cursor g1 + j * length (females ++ males))%nat by lia.
  rewrite <- Hd. split; [exact Hrun|]. split; [exact Hpos|]. exact H.
Qed.

(** The loop builds the null distribution one replicate at a time. *)
Lemma arith_bootstrap_loop females males n : forall a vals g,
  Generic.positive_sizes A (females ++ males) ->
  exists xs g',
    for_each (seq a n) (Generic.bootstrap A females (females ++ males)) (vals, g)
      = Ok (vals ++ xs, g') /\
    length xs = n /\
    (forall i x, xs !! i = Some x -> Generic.replicate A females males g i x) /\
    draws g' = draws g /\
    cursor g' = (cursor g + n * length (females ++ males))%nat.
Proof.
  induction n as [|n IH]; intros a vals g Hpos.
  - exists [], g. simpl. rewrite app_nil_r. repeat split; [|lia].
    intros i x H. discriminate H.
  - cbn [seq for_each].
    destruct (arith_bootstrap_replicate females males a vals g Hpos)
      as (x0 & g1 & Hstep & Hrep & Hd1 & Hc1).
    rewrite Hstep. cbn [mbind res_bind].
    destruct (IH (S a) (vals ++ [x0]) g1 Hpos)
      as (xs & g' & Hrun & Hlen & Hall & Hd & Hc).
    exists (x0 :: xs), g'. rewrite Hrun, <- app_assoc.
    repeat split; simpl; [congruence | | congruence | lia].
    intros [|i] x H; simpl in H.
    + injection H as <-. exact Hrep.
    + eapply arith_replicate_shift; eauto.
Qed.

(** The test as a function of its null distribution: the replicates are
    sorted, the two percentiles are read off and rounded, and the count
    of extreme replicates gives the p-value. *)
Lemma arith_run_permutations_from_loop females males emp g null g' :
  for_each (seq 0 n_bootstraps)
    (Generic.bootstrap A females (females ++ males)) ([], g) = Ok (null, g') ->
  length null = n_bootstraps ->
  Generic.run_permutations A females males emp g
  = Ok (Generic.np_round A
          (Generic.np_percentile A (Generic.list_sort A null) (25 # 10)) 3,
        Generic.np_round A
          (Generic.np_percentile A (Generic.list_sort A null) (975 # 10)) 3,
        Generic.format_pvalue A
          (Generic.py_round A
             (Generic.div A
                (Generic.add A
                   (Generic.of_Z A (Z.of_nat (Generic.exceeding A null emp)))
                   (Generic.of_Z A 1))
                (Generic.add A (Generic.of_Z A 10000) (Generic.of_Z A 1))) 5),
        g').
Proof.
  intros H Hlen. unfold Generic.run_permutations. rewrite H.
  cbn [mbind res_bind]. unfold Generic.ptwotail, Generic.truediv.
  rewrite (Generic.succ_nonzero A laws). cbn [negb andb mbind res_bind].
  pose proof (Generic.sort_Permutation A laws null) as Hp.
  unfold Generic.exceeding.
  rewrite (filter_length_Permutation _ _ _ Hp).
  rewrite (Permutation_length Hp), Hlen.
  unfold n_bootstraps. rewrite Z2Nat.id by lia. reflexivity.
Qed.


(** *** The per-species driver *)

Lemma arith_run_permutations_returns females males emp g :
  Generic.positive_sizes A females -> Generic.positive_sizes A males ->
  exists lo hi p g',
    Generic.run_permutations A females males emp g = Ok (lo, hi, p, g').
Proof.
  intros HF HM.
  assert (Generic.positive_sizes A (females ++ males)) as Hpos
    by now apply Forall_app.
  destruct (arith_bootstrap_loop females males n_bootstraps 0 [] g Hpos)
    as (null & g' & Hrun & Hlen & _).
  rewrite app_nil_l in Hrun.
  eexists _, _, _, g'.
  apply (arith_run_permutations_from_loop _ _ _ _ _ _ Hrun Hlen).
Qed.

(** With a NumPy argument the index returns for any two numbers: no
    division raises, and one of the three tests holds. *)
Lemma arith_ssdi_single_number a b :
  Generic.number A a -> Generic.number A b ->
  exists x, Generic.ssdi_single A true a b = Ok x.
Proof.
  intros Ha Hb. unfold Generic.ssdi_single, Generic.truediv.
  cbn [negb andb mbind res_bind].
  destruct (Generic.ltb A a b) eqn:E1; [eexists; reflexivity|].
  destruct (Generic.ltb A b a) eqn:E2; [eexists; reflexivity|].
  destruct (Generic.trichotomy A laws a b Ha Hb) as [H|[H|H]]; try congruence.
  rewrite H. eexists; reflexivity.
Qed.

Lemma arith_index_input_number l :
  l <> [] -> Generic.positive_sizes A l ->
  Generic.number A (Generic.index_input A l).
Proof.
  intros Hne Hpos. unfold Generic.index_input.
  destruct (Nat.ltb 1 (length l)).
  - apply (Generic.round_number A laws), (Generic.mean_number A laws); assumption.
  - destruct l as [|x l]; [congruence|]. simpl.
    apply (Generic.positive_number A laws).
    now apply Forall_cons in Hpos as [Hx _].
Qed.

(** The analyses shared by the three branches with pairs to compare. *)
Lemma arith_pairwise_tests_outcome (v : Generic.cohort A) x af am g :
  Generic.positive_sizes A (Generic.F v) ->
  Generic.positive_sizes A (Generic.M v) ->
  exists t g' avg,
    Generic.pairwise_tests A v x af am g = Ok (t, g') /\
    Generic.ssdi_pairwise A (Generic.F v) (Generic.M v) true
      = Ok (avg, Generic.p_pair t) /\
    Generic.avg_ssdi t = Generic.Flt avg /\
    Generic.diff t = Generic.Flt (Generic.fabs A (Generic.sub A x avg)) /\
    Generic.avgf t = af /\ Generic.avgm t = am.
Proof.
  intros HpF HpM. unfold Generic.pairwise_tests.
  rewrite (arith_ssdi_pairwise_outcome A laws _ _ true HpF HpM).
  cbn [mbind res_bind].
  destruct (arith_run_permutations_returns (Generic.F v) (Generic.M v)
              (Generic.np_round A
                 (Generic.np_mean A
                    (Generic.cross_product A (Generic.F v) (Generic.M v))) 3)
              g HpF HpM)
    as (lo & hi & p & g' & Hrun).
  rewrite Hrun. cbn [mbind res_bind].
  eexists _, g', _. split; [reflexivity|]. cbn. repeat split.
Qed.

(** C7.  For a species with at least one positive size of each sex and
    more than one of some sex, the index is computed from [index_input]:
    the mean rounded to 1 decimal for a sex with several entries, the
    raw value otherwise.  The displayed average of a sex with several
    entries is that same rounded mean (["NA"] for a single entry), and
    the absolute difference is [|standard_ssdi - avg_pairwise_ssdi|]. *)
Theorem species_tests_rounded_means (v : Generic.cohort A) (g : random_state) :
  (1 <= length (Generic.F v))%nat -> (1 <= length (Generic.M v))%nat ->
  (1 < length (Generic.F v) \/ 1 < length (Generic.M v))%nat ->
  Generic.positive_sizes A (Generic.F v) ->
  Generic.positive_sizes A (Generic.M v) ->
  exists x t g' avg,
    Generic.species_tests A v g = Ok (Some (x, t), g') /\
    Generic.ssdi_single A true (Generic.index_input A (Generic.F v))
      (Generic.index_input A (Generic.M v)) = Ok x /\
    (1 < length (Generic.F v) ->
     Generic.index_input A (Generic.F v)
     = Generic.np_round A (Generic.np_mean A (Generic.F v)) 1 /\
     Generic.avgf t
     = Generic.Flt (Generic.np_round A (Generic.np_mean A (Generic.F v)) 1))%nat /\
    (1 < length (Generic.M v) ->
     Generic.index_input A (Generic.M v)
     = Generic.np_round A (Generic.np_mean A (Generic.M v)) 1 /\
     Generic.avgm t
     = Generic.Flt (Generic.np_round A (Generic.np_mean A (Generic.M v)) 1))%nat /\
    Generic.ssdi_pairwise A (Generic.F v) (Generic.M v) true
      = Ok (avg, Generic.p_pair t) /\
    Generic.avg_ssdi t = Generic.Flt avg /\
    Generic.diff t = Generic.Flt (Generic.fabs A (Generic.sub A x avg)).
Proof.
  intros HnF HnM Hmore HpF HpM.
  assert (Generic.F v <> []) as HF
    by (intros E; rewrite E in HnF; simpl in HnF; lia).
  assert (Generic.M v <> []) as HM
    by (intros E; rewrite E in HnM; simpl in HnM; lia).
  destruct (arith_ssdi_single_number
              (Generic.index_input A (Generic.F v))
              (Generic.index_input A (Generic.M v)))
    as [x Hx]; try (now apply arith_index_input_number).
  exists x. rewrite Hx.
  unfold Generic.species_tests, Generic.index_input in *.
  destruct (Nat.ltb_spec 1 (length (Generic.F v))) as [LF|LF];
    destruct (Nat.ltb_spec 1 (length (Generic.M v))) as [LM|LM]; try lia.
  - (* several females, several males *)
    rewrite (proj2 (Nat.eqb_neq _ 1)) by lia.
    rewrite (proj2 (Nat.eqb_neq (length (Generic.M v)) 1)) by lia.
    cbn [andb]. rewrite Hx. cbn [mbind res_bind].
    destruct (arith_pairwise_tests_outcome v x
                (Generic.Flt (Generic.np_round A (Generic.np_mean A (Generic.F v)) 1))
                (Generic.Flt (Generic.np_round A (Generic.np_mean A (Generic.M v)) 1))
                g HpF HpM)
      as (t & g' & avg & Hrun & Hpw & Ha & Hd & Hf & Hm).
    rewrite Hrun. cbn [mbind res_bind].
    exists t, g', avg. auto 10.
  - (* several females, one male *)
    assert (length (Generic.M v) = 1%nat) as EM by lia.
    rewrite (proj2 (Nat.eqb_neq _ 1)) by lia. rewrite EM.
    destruct (Generic.M v) as [|m0 ms] eqn:EMv; [congruence|].
    cbn [andb Nat.eqb getitem lookup list_lookup hd] in *.
    cbn [mbind res_bind]. rewrite Hx. cbn [mbind res_bind]. rewrite <- EMv in *.
    destruct (arith_pairwise_tests_outcome v x
                (Generic.Flt (Generic.np_round A (Generic.np_mean A (Generic.F v)) 1))
                (Generic.Str "NA") g HpF HpM)
      as (t & g' & avg & Hrun & Hpw & Ha & Hd & Hf & Hm).
    rewrite Hrun. cbn [mbind res_bind].
    exists t, g', avg. repeat split; auto. all: intros; lia.
  - (* one female, several males *)
    assert (length (Generic.F v) = 1%nat) as EF by lia.
    rewrite (proj2 (Nat.eqb_neq (length (Generic.M v)) 1)) by lia. rewrite EF.
    destruct (Generic.F v) as [|f0 fs] eqn:EFv; [congruence|].
    cbn [andb Nat.eqb getitem lookup list_lookup hd] in *.
    cbn [mbind res_bind]. rewrite Hx. cbn [mbind res_bind]. rewrite <- EFv in *.
    destruct (arith_pairwise_tests_outcome v x (Generic.Str "NA")
                (Generic.Flt (Generic.np_round A (Generic.np_mean A (Generic.M v)) 1))
                g HpF HpM)
      as (t & g' & avg & Hrun & Hpw & Ha & Hd & Hf & Hm).
    rewrite Hrun. cbn [mbind res_bind].
    exists t, g', avg. repeat split; auto. all: intros; lia.
Qed.

End PermutationEngine.


Lemma species_tests_rounded_means_witness :
  exists x t g' avg,
    Generic.species_tests exact_arith
      (Generic.Build_cohort exact_arith [10; 11] [12; 13])
      {| draws := fun _ => 1%nat; cursor := 0 |} = Ok (Some (x, t), g') /\
    Generic.ssdi_single exact_arith true (25 # 2) (21 # 2) = Ok x /\
    ((1 < 2)%nat -> 25 # 2 = py_round (Qsum [12; 13] / inject_Z 2) 1 /\
                    Generic.avgf t = Generic.Flt (A := exact_arith) (25 # 2)) /\
    ((1 < 2)%nat -> 21 # 2 = py_round (Qsum [10; 11] / inject_Z 2) 1 /\
                    Generic.avgm t = Generic.Flt (A := exact_arith) (21 # 2)) /\
    Generic.ssdi_pairwise exact_arith [12; 13] [10; 11] true
      = Ok (avg, Generic.p_pair t) /\
    Generic.avg_ssdi t = Generic.Flt avg /\
    Generic.diff t = Generic.Flt (A := exact_arith) (Qabs (x - avg)).
Proof.
  assert (Generic.positive_sizes exact_arith [12; 13]) as HF
    by (repeat constructor).
  assert (Generic.positive_sizes exact_arith [10; 11]) as HM
    by (repeat constructor).
  exact (species_tests_rounded_means exact_arith exact_arith_laws
           (Generic.Build_cohort exact_arith [10; 11] [12; 13])
           {| draws := fun _ => 1%nat; cursor := 0 |}
           ltac:(simpl; lia) ltac:(simpl; lia) ltac:(simpl; lia) HF HM).
Defined.
